(** * The AI state coordinator of the renderer

    A shallow embedding of [src/renderer/src/context/ai-state-context.tsx]:
    the [AiStateEnum] enumeration, the [AiStateProvider] component with its
    [useState] cell, its [useRef] timer handle, its two [useMemo] cells and
    the context value it provides, and the [useAiState] hook.

    The component runs inside a host (the JavaScript event loop with
    [setTimeout]/[clearTimeout]) and inside React (queued state updates, a
    commit that re-renders the provider, context consumers re-rendered when
    the provided object changes).  Both are modelled explicitly below, as far
    as the component uses them:

    - time is a natural number of milliseconds; a timer fires as soon as its
      due time is reached, timers that are due fire in due-time order;
    - a call of [setAiState] only queues the update: React commits the queue
      and renders the provider again when the task that made the call, or
      the timer callback, is over.  [set] is a task made of one call and its
      commit, [batch] is several calls before one commit, and [running]
      covers every configuration in between. *)

From Stdlib Require Import List Bool NArith PArith Arith Lia String.
Import ListNotations.

Open Scope N_scope.

(** ** The enumeration *)

Inductive AiState : Type :=
  | IDLE
  | THINKING_SPEAKING
  | INTERRUPTED
  | LOADING
  | LISTENING
  | WAITING.

(** [AiStateEnum] is a string enum; a value of type [AiState] is one of these
    six strings and [===] compares the strings. *)
Definition AiState_value (s : AiState) : string :=
  match s with
  | IDLE => "idle"
  | THINKING_SPEAKING => "thinking-speaking"
  | INTERRUPTED => "interrupted"
  | LOADING => "loading"
  | LISTENING => "listening"
  | WAITING => "waiting"
  end%string.

Definition strict_eq (a b : AiState) : bool :=
  String.eqb (AiState_value a) (AiState_value b).

Definition all_states : list AiState :=
  [IDLE; THINKING_SPEAKING; INTERRUPTED; LOADING; LISTENING; WAITING].

(** ** Objects, memo cells and the context value *)

(** The object returned by the [stateChecks] factory. *)
Record StateChecks : Type := mkChecks {
  chk_isIdle : bool;
  chk_isThinkingSpeaking : bool;
  chk_isInterrupted : bool;
  chk_isLoading : bool;
  chk_isListening : bool;
  chk_isWaiting : bool
}.

(** The data fields of [AiStateContextType]; [setAiState] and [resetState]
    are the two stable callbacks of the provider (see [Handle] below). *)
Record AiStateContextType : Type := mkContext {
  value_aiState : AiState;
  isIdle : bool;
  isThinkingSpeaking : bool;
  isInterrupted : bool;
  isLoading : bool;
  isListening : bool;
  isWaiting : bool
}.

(** A JavaScript object: its identity and its contents.  [Object.is] on two
    objects compares identities. *)
Record Obj (V : Type) : Type := mkObj { oid : nat; oval : V }.
Arguments mkObj {V} _ _.
Arguments oid {V} _.
Arguments oval {V} _.

(** The cell behind one [useMemo] call: the dependencies of the last
    computation and the object it returned. *)
Record MemoCell (D V : Type) : Type := mkMemo { memo_deps : D; memo_obj : Obj V }.
Arguments mkMemo {D V} _ _.
Arguments memo_deps {D V} _.
Arguments memo_obj {D V} _.

(** [useMemo(factory, deps)]: the cached object when no dependency changed,
    otherwise a new object with a fresh identity. *)
Definition useMemo {D V : Type} (deps_eqb : D -> D -> bool)
    (factory : unit -> V) (deps : D) (cell : MemoCell D V) (fresh : nat)
  : MemoCell D V * nat :=
  if deps_eqb (memo_deps cell) deps
  then (cell, fresh)
  else (mkMemo deps (mkObj fresh (factory tt)), S fresh).

(** ** Timers of the host *)

(** The only callback this component ever schedules is the closure of
    lines 99-102. *)
Inductive Callback : Type := Expire.

(** A timer handle ([NodeJS.Timeout], or a positive integer in a browser) is
    always truthy, so that [if (timerRef.current)] tests for non-null. *)
Record Timer : Type := mkTimer {
  handle : positive;
  due : N;
  callback : Callback
}.

(** ** Configurations *)

Record Config : Type := mkConfig {
  (* the host *)
  now : N;
  next_handle : positive;
  pending : list Timer;
  next_oid : nat;
  (* the hooks of the mounted AiStateProvider *)
  aiState : AiState;
  updates : list AiState;
  timerRef : option positive;
  checksMemo : MemoCell AiState StateChecks;
  contextMemo : MemoCell (AiState * nat) AiStateContextType;
  (* the consumers below the provider, and what each was rendered with *)
  consumers : list nat;
  renders : list (nat * AiStateContextType)
}.

Definition with_now (t : N) (c : Config) : Config :=
  mkConfig t (next_handle c) (pending c) (next_oid c) (aiState c) (updates c)
    (timerRef c) (checksMemo c) (contextMemo c) (consumers c) (renders c).

Definition with_timers (h : positive) (l : list Timer) (c : Config) : Config :=
  mkConfig (now c) h l (next_oid c) (aiState c) (updates c)
    (timerRef c) (checksMemo c) (contextMemo c) (consumers c) (renders c).

Definition with_state (s : AiState) (q : list AiState) (c : Config) : Config :=
  mkConfig (now c) (next_handle c) (pending c) (next_oid c) s q
    (timerRef c) (checksMemo c) (contextMemo c) (consumers c) (renders c).

Definition with_timerRef (r : option positive) (c : Config) : Config :=
  mkConfig (now c) (next_handle c) (pending c) (next_oid c) (aiState c)
    (updates c) r (checksMemo c) (contextMemo c) (consumers c) (renders c).

Definition with_consumers (l : list nat) (r : list (nat * AiStateContextType))
    (c : Config) : Config :=
  mkConfig (now c) (next_handle c) (pending c) (next_oid c) (aiState c)
    (updates c) (timerRef c) (checksMemo c) (contextMemo c) l r.

(** [setTimeout(cb, delay)] and [clearTimeout(h)]. *)
Definition setTimeout (cb : Callback) (delay : N) (c : Config)
  : positive * Config :=
  (next_handle c,
   with_timers (Pos.succ (next_handle c))
     (pending c ++ [mkTimer (next_handle c) (now c + delay) cb]) c).

Definition remove_timer (h : positive) (l : list Timer) : list Timer :=
  filter (fun t => negb (Pos.eqb (handle t) h)) l.

Definition clearTimeout (h : positive) (c : Config) : Config :=
  with_timers (next_handle c) (remove_timer h (pending c)) c.

(** ** The provider *)

(** Line 77. *)
Definition initialState : AiState := LOADING.

(** The setter returned by [useState]: the update is queued and applied by
    the next commit. *)
Definition setAiStateInternal (v : AiState) (c : Config) : Config :=
  with_state (aiState c) (updates c ++ [v]) c.

(** Lines 91-110. *)
Definition setAiState (newState : AiState) (c : Config) : Config :=
  if strict_eq newState INTERRUPTED || strict_eq newState WAITING then
    let c1 := setAiStateInternal newState c in
    let c2 := match timerRef c1 with
              | Some h => clearTimeout h c1
              | None => c1
              end in
    let '(h, c3) := setTimeout Expire 2000 c2 in
    with_timerRef (Some h) c3
  else
    let c1 := setAiStateInternal newState c in
    match timerRef c1 with
    | Some h => with_timerRef None (clearTimeout h c1)
    | None => c1
    end.

(** Lines 99-102, the body of the scheduled closure. *)
Definition run_callback (cb : Callback) (c : Config) : Config :=
  match cb with
  | Expire => with_timerRef None (setAiStateInternal IDLE c)
  end.

(** Lines 126-128. *)
Definition resetState (c : Config) : Config := setAiState IDLE c.

(** Lines 131-137, the clean-up of the effect, run when the provider
    unmounts. *)
Definition unmount (c : Config) : Config :=
  match timerRef c with
  | Some h => clearTimeout h c
  | None => c
  end.

(** Lines 114-121, the factory of [stateChecks]. *)
Definition stateChecks_of (s : AiState) : StateChecks :=
  {| chk_isIdle := strict_eq s IDLE;
     chk_isThinkingSpeaking := strict_eq s THINKING_SPEAKING;
     chk_isInterrupted := strict_eq s INTERRUPTED;
     chk_isLoading := strict_eq s LOADING;
     chk_isListening := strict_eq s LISTENING;
     chk_isWaiting := strict_eq s WAITING |}.

(** Lines 141-146, the factory of [contextValue]. *)
Definition contextValue_of (s : AiState) (k : StateChecks) : AiStateContextType :=
  {| value_aiState := s;
     isIdle := chk_isIdle k;
     isThinkingSpeaking := chk_isThinkingSpeaking k;
     isInterrupted := chk_isInterrupted k;
     isLoading := chk_isLoading k;
     isListening := chk_isListening k;
     isWaiting := chk_isWaiting k |}.

(** The dependency list of [contextValue] is
    [[aiState, setAiState, stateChecks, resetState]]; the two callbacks come
    from [useCallback] with dependencies that never change, so that the list
    changes exactly when [aiState] or the identity of [stateChecks] does. *)
Definition context_deps_eqb (a b : AiState * nat) : bool :=
  strict_eq (fst a) (fst b) && Nat.eqb (snd a) (snd b).

(** The object currently given to [AiStateContext.Provider]. *)
Definition provided (c : Config) : Obj AiStateContextType :=
  memo_obj (contextMemo c).

(** One render of [AiStateProvider] (lines 113-154): both memo cells are
    consulted, and when the provided object is a new one every consumer of
    the context is rendered again with it. *)
Definition render (c : Config) : Config :=
  let s := aiState c in
  let '(cm, n1) :=
    useMemo strict_eq (fun _ => stateChecks_of s) s (checksMemo c) (next_oid c) in
  let checks := memo_obj cm in
  let '(xm, n2) :=
    useMemo context_deps_eqb (fun _ => contextValue_of s (oval checks))
      (s, oid checks) (contextMemo c) n1 in
  let value := memo_obj xm in
  let notified :=
    if Nat.eqb (oid value) (oid (provided c)) then []
    else map (fun k => (k, oval value)) (consumers c) in
  mkConfig (now c) (next_handle c) (pending c) n2 s (updates c) (timerRef c)
    cm xm (consumers c) (renders c ++ notified).

(** React applies the queued updates in order, then renders. *)
Definition commit (c : Config) : Config :=
  render (with_state (fold_left (fun _ v => v) (updates c) (aiState c)) [] c).

(** The provider right after it mounted, at time [t0], in a host whose next
    timer handle is [h0]: the first render created both memoised objects. *)
Definition mount (t0 : N) (h0 : positive) : Config :=
  mkConfig t0 h0 [] 2 initialState [] None
    (mkMemo initialState (mkObj 0%nat (stateChecks_of initialState)))
    (mkMemo (initialState, 0%nat)
       (mkObj 1%nat (contextValue_of initialState (stateChecks_of initialState))))
    [] [].

(** A component that calls [useAiState] mounts below the provider: it is
    rendered with the current value and is a consumer from then on. *)
Definition subscribe (k : nat) (c : Config) : Config :=
  if existsb (Nat.eqb k) (consumers c) then c
  else with_consumers (consumers c ++ [k]) (renders c ++ [(k, oval (provided c))]) c.

(** ** The store operations, one event-loop task each *)

Definition set (s : AiState) (c : Config) : Config := commit (setAiState s c).

Definition reset (c : Config) : Config := commit (resetState c).

(** What a consumer reads as [aiState]. *)
Definition get (c : Config) : AiState := value_aiState (oval (provided c)).

(** ** The event loop *)

(** The timer to run first: the smallest due time, the oldest timer among
    equal due times. *)
Fixpoint earliest (l : list Timer) : option Timer :=
  match l with
  | [] => None
  | t :: r =>
      match earliest r with
      | Some u => if due u <? due t then Some u else Some t
      | None => Some t
      end
  end.

Definition next_timer (limit : N) (c : Config) : option Timer :=
  match earliest (pending c) with
  | Some t => if due t <=? limit then Some t else None
  | None => None
  end.

(** The host takes the timer off its list, runs the callback, and React
    commits. *)
Definition fire (t : Timer) (c : Config) : Config :=
  let c1 := with_now (N.max (now c) (due t)) c in
  let c2 := with_timers (next_handle c1) (remove_timer (handle t) (pending c1)) c1 in
  commit (run_callback (callback t) c2).

Fixpoint run_timers (fuel : nat) (limit : N) (c : Config) : Config :=
  match fuel with
  | O => c
  | S f =>
      match next_timer limit c with
      | Some t => run_timers f limit (fire t c)
      | None => c
      end
  end.

(** [d] milliseconds pass with no call from outside: every timer due by then
    fires.  A callback of this component never schedules a timer, so the
    number of pending timers is enough fuel ([advance_none_due]). *)
Definition advance (d : N) (c : Config) : Config :=
  let limit := now c + d in
  with_now limit (run_timers (List.length (pending c)) limit c).

(** ** The hook *)

Inductive Error : Type := mkError (message : string).

Inductive Result (A : Type) : Type :=
  | Return (a : A)
  | Throw (e : Error).
Arguments Return {A} _.
Arguments Throw {A} _.

(** What [useAiState] hands to a component: the data of the context value and
    its two callbacks, bound to the provider that created them. *)
Record Handle : Type := mkHandle {
  h_value : AiStateContextType;
  h_setAiState : AiState -> Config;
  h_resetState : Config
}.

(** [useContext(AiStateContext)]: the value of the enclosing provider, or the
    default [null] of line 82 when there is none. *)
Definition useContext (scope : option Config) : option Handle :=
  match scope with
  | Some c => Some (mkHandle (oval (provided c)) (fun s => set s c) (reset c))
  | None => None
  end.

(** The one error of the module. *)
Definition usage_error : Error :=
  mkError "useAiState must be used within a AiStateProvider".

(** Lines 161-169. *)
Definition useAiState (scope : option Config) : Result Handle :=
  match useContext scope with
  | None => Throw usage_error
  | Some context => Return context
  end.

(** A component reading the state, setting it, resetting it. *)
Definition read_aiState (scope : option Config) : Result AiState :=
  match useAiState scope with
  | Return h => Return (value_aiState (h_value h))
  | Throw e => Throw e
  end.

Definition call_setAiState (scope : option Config) (s : AiState) : Result Config :=
  match useAiState scope with
  | Return h => Return (h_setAiState h s)
  | Throw e => Throw e
  end.

Definition call_resetState (scope : option Config) : Result Config :=
  match useAiState scope with
  | Return h => Return (h_resetState h)
  | Throw e => Throw e
  end.

(** ** Observations *)

Definition transient (s : AiState) : bool :=
  match s with
  | INTERRUPTED | WAITING => true
  | _ => false
  end.

(** The provider holds the handle of a timer. *)
Definition armed (c : Config) : bool :=
  match timerRef c with
  | Some _ => true
  | None => false
  end.

(** The six derived predicates of a context value, in the order of the
    interface. *)
Definition predicates (v : AiStateContextType) : list bool :=
  [isIdle v; isThinkingSpeaking v; isInterrupted v; isLoading v;
   isListening v; isWaiting v].

Definition predicate_of (s : AiState) (v : AiStateContextType) : bool :=
  match s with
  | IDLE => isIdle v
  | THINKING_SPEAKING => isThinkingSpeaking v
  | INTERRUPTED => isInterrupted v
  | LOADING => isLoading v
  | LISTENING => isListening v
  | WAITING => isWaiting v
  end.

(** What the rest of the application can see of a configuration: the context
    value and the due times of the armed timers. *)
Definition observable (c : Config) : AiStateContextType * list N :=
  (oval (provided c), map due (pending c)).

(** The renders of consumers caused by a task that leads from [c] to [c']. *)
Definition notifications (c c' : Config) : list (nat * AiStateContextType) :=
  skipn (List.length (renders c)) (renders c').

Definition received (k : nat) (l : list (nat * AiStateContextType))
  : list AiStateContextType :=
  map snd (filter (fun p => Nat.eqb (fst p) k) l).

(** The configurations the mounted provider can be in between two tasks. *)
Inductive reachable : Config -> Prop :=
  | reach_mount : forall t0 h0, reachable (mount t0 h0)
  | reach_subscribe : forall k c, reachable c -> reachable (subscribe k c)
  | reach_set : forall s c, reachable c -> reachable (set s c)
  | reach_reset : forall c, reachable c -> reachable (reset c)
  | reach_advance : forall d c, reachable c -> reachable (advance d c).

(** The invariant behind [reachable], in three parts. *)

(** The memo cells hold what their factories return for the committed state,
    and their objects are older than the next fresh identity. *)
Definition memo_ok (c : Config) : Prop :=
  memo_deps (checksMemo c) = aiState c /\
  oval (memo_obj (checksMemo c)) = stateChecks_of (aiState c) /\
  memo_deps (contextMemo c) = (aiState c, oid (memo_obj (checksMemo c))) /\
  oval (provided c) = contextValue_of (aiState c) (stateChecks_of (aiState c)) /\
  (oid (memo_obj (checksMemo c)) < next_oid c)%nat /\
  (oid (provided c) < next_oid c)%nat.

(** The host holds the timer of [timerRef] and no other, it is not yet due,
    and it is there exactly in the two transient states. *)
Definition timer_ok (c : Config) : Prop :=
  match timerRef c with
  | Some h => exists d, pending c = [mkTimer h d Expire] /\ now c < d
  | None => pending c = []
  end /\
  transient (aiState c) = armed c.

Definition wf (c : Config) : Prop :=
  updates c = [] /\ timer_ok c /\ memo_ok c /\ NoDup (consumers c).

(** The invariant of the expiry timer: the host holds at most one timer of
    the provider, it holds one exactly when the current state is
    [INTERRUPTED] or [WAITING], and [timerRef] is the handle of that timer. *)
Definition timer_invariant (c : Config) : Prop :=
  (List.length (pending c) <= 1)%nat /\
  (pending c <> [] <-> get c = INTERRUPTED \/ get c = WAITING) /\
  (forall h, timerRef c = Some h <-> exists t, pending c = [mkTimer h t Expire]).

(** ** Histories, batches and further invariants *)

(** A history of the store: each entry is a pause with no call, followed by
    one call of [setAiState] in a task of its own. *)
Definition run_history (l : list (N * AiState)) (c : Config) : Config :=
  fold_left (fun c e => set (snd e) (advance (fst e) c)) l c.

Definition elapsed (l : list (N * AiState)) : N :=
  fold_right (fun e t => fst e + t) 0 l.

(** Several calls of [setAiState] inside one task, as one event handler
    makes them: the bodies run one after the other, no commit in between. *)
Definition batch (calls : list AiState) (c : Config) : Config :=
  fold_left (fun c s => setAiState s c) calls c.

(** The value of the context in state [s]. *)
Definition value_of (s : AiState) : AiStateContextType :=
  contextValue_of s (stateChecks_of s).

(** The host holds the timer of [timerRef] and no other. *)
Definition timer_held (c : Config) : Prop :=
  match timerRef c with
  | Some h => exists d, pending c = [mkTimer h d Expire] /\ now c < d
  | None => pending c = []
  end.

(** No armed timer is due later than one expiry delay from now. *)
Definition deadline_ok (c : Config) : Prop :=
  forall t, In t (pending c) -> due t <= now c + 2000.

(** Every consumer was last rendered with the value provided now, and a
    component that never subscribed was never rendered. *)
Definition up_to_date (c : Config) : Prop :=
  forall k,
    (In k (consumers c) ->
     exists l, received k (renders c) = l ++ [oval (provided c)]) /\
    (~ In k (consumers c) -> received k (renders c) = []).

(** [x] differs from [c] in its timers, its handle in [timerRef] and its
    queue of updates only. *)
Definition same_render_state (x c : Config) : Prop :=
  now x = now c /\ aiState x = aiState c /\ next_oid x = next_oid c /\
  checksMemo x = checksMemo c /\ contextMemo x = contextMemo c /\
  consumers x = consumers c /\ renders x = renders c.

(** ** Every instant of the provider *)

(** The state the next commit installs: the last update in the queue, the
    committed state when the queue is empty. *)
Definition next_state (c : Config) : AiState :=
  fold_left (fun _ v => v) (updates c) (aiState c).

(** The first half of [fire]: the host took the timer off its list and the
    closure of lines 99-102 ran; React has not committed yet. *)
Definition expire_body (t : Timer) (c : Config) : Config :=
  let c1 := with_now (N.max (now c) (due t)) c in
  let c2 := with_timers (next_handle c1) (remove_timer (handle t) (pending c1)) c1 in
  run_callback (callback t) c2.

(** What can happen next: a component subscribes, [setAiState] is called and
    returns, React commits, time passes between two tasks, or a timer
    callback has run. *)
Inductive step : Config -> Config -> Prop :=
  | step_subscribe : forall k c, step c (subscribe k c)
  | step_call : forall s c, step c (setAiState s c)
  | step_commit : forall c, step c (commit c)
  | step_advance : forall d c, updates c = [] -> step c (advance d c)
  | step_expire : forall t c,
      updates c = [] -> In t (pending c) -> step c (expire_body t c).

(** The configurations the provider passes through, those between a call
    and the commit included. *)
Inductive running : Config -> Prop :=
  | run_mount : forall t0 h0, running (mount t0 h0)
  | run_step : forall c c', running c -> step c c' -> running c'.

(** [evolves c b c']: steps lead from [c] to [c'], and [b] tells whether one
    of them changed the state that consumers read. *)
Inductive evolves (c : Config) : bool -> Config -> Prop :=
  | ev_refl : evolves c false c
  | ev_step : forall b x y,
      evolves c b x -> step x y ->
      evolves c (b || negb (strict_eq (get x) (get y))) y.

(** The invariant of [running]. *)
Definition inv (c : Config) : Prop :=
  timer_held c /\ memo_ok c /\ NoDup (consumers c) /\
  armed c = transient (next_state c).

(** The timer follows the state that was asked for last: at most one timer,
    its handle in [timerRef], and one exactly when the state the next commit
    installs is [INTERRUPTED] or [WAITING]. *)
Definition timer_follows_request (c : Config) : Prop :=
  (List.length (pending c) <= 1)%nat /\
  (forall h, timerRef c = Some h <-> exists t, pending c = [mkTimer h t Expire]) /\
  (pending c <> [] <-> next_state c = INTERRUPTED \/ next_state c = WAITING).

(** ** Auxiliary definitions for the proofs *)

(** The timer part of a call of [setAiState], whatever the configuration. *)
Definition timers_left (c : Config) : list Timer :=
  match timerRef c with
  | Some h => remove_timer h (pending c)
  | None => pending c
  end.

(** A render after the committed state became [s]. *)
Definition rendered (s : AiState) (c : Config) : Config :=
  let same := strict_eq (aiState c) s in
  let value := contextValue_of s (stateChecks_of s) in
  mkConfig (now c) (next_handle c) (pending c)
    (if same then next_oid c else S (S (next_oid c)))
    s [] (timerRef c)
    (if same then checksMemo c
     else mkMemo s (mkObj (next_oid c) (stateChecks_of s)))
    (if same then contextMemo c
     else mkMemo (s, next_oid c) (mkObj (S (next_oid c)) value))
    (consumers c)
    (renders c ++ if same then [] else map (fun k => (k, value)) (consumers c)).

(** How time passes in a well-formed configuration: nothing is armed, or the
    armed timer is not due yet, or it fires. *)
Inductive advance_case (d : N) (c : Config) : Prop :=
  | adv_idle :
      timerRef c = None -> pending c = [] ->
      advance d c = with_now (now c + d) c -> advance_case d c
  | adv_wait : forall h t,
      timerRef c = Some h -> pending c = [mkTimer h t Expire] ->
      now c + d < t ->
      advance d c = with_now (now c + d) c -> advance_case d c
  | adv_fire : forall h t,
      timerRef c = Some h -> pending c = [mkTimer h t Expire] ->
      t <= now c + d ->
      advance d c = with_now (now c + d) (fire (mkTimer h t Expire) c) ->
      advance_case d c.

(** ** Basic facts *)

#[local] Arguments Nat.eqb : simpl never.
#[local] Arguments N.leb : simpl never.
#[local] Arguments N.ltb : simpl never.
#[local] Arguments N.add : simpl never.
#[local] Arguments N.max : simpl never.

Lemma strict_eq_iff (a b : AiState) : strict_eq a b = true <-> a = b.
Proof.
  split.
  - destruct a, b; intros H; try reflexivity; vm_compute in H; discriminate H.
  - intros ->. destruct b; reflexivity.
Qed.

Lemma strict_eq_refl (a : AiState) : strict_eq a a = true.
Proof. now apply strict_eq_iff. Qed.

Lemma strict_eq_neq (a b : AiState) : a <> b -> strict_eq a b = false.
Proof.
  intros H. destruct (strict_eq a b) eqn:E; [|reflexivity].
  apply strict_eq_iff in E. contradiction.
Qed.

Lemma transient_test (s : AiState) :
  strict_eq s INTERRUPTED || strict_eq s WAITING = transient s.
Proof. destruct s; reflexivity. Qed.

Lemma fold_last (q : list AiState) (v a : AiState) :
  fold_left (fun _ x => x) (q ++ [v]) a = v.
Proof. rewrite fold_left_app. reflexivity. Qed.

Lemma setAiState_eq (s : AiState) (c : Config) :
  setAiState s c =
  mkConfig (now c)
    (if transient s then Pos.succ (next_handle c) else next_handle c)
    (if transient s
     then timers_left c ++ [mkTimer (next_handle c) (now c + 2000) Expire]
     else timers_left c)
    (next_oid c) (aiState c) (updates c ++ [s])
    (if transient s then Some (next_handle c) else None)
    (checksMemo c) (contextMemo c) (consumers c) (renders c).
Proof.
  unfold setAiState. rewrite transient_test.
  destruct c as [nw nh pd no st up tr cm xm cs rs]; unfold timers_left; simpl.
  destruct (transient s), tr; reflexivity.
Qed.

Lemma render_eq (s : AiState) (c : Config) :
  memo_ok c -> render (with_state s [] c) = rendered s c.
Proof.
  intros (Hd & Hv & Hxd & Hxv & Hlt1 & Hlt2).
  destruct c as [nw nh pd no st up tr [cd [ci cv]] [xd [xi xv]] cs rs].
  unfold provided in *; simpl in *. subst cd cv xd xv.
  unfold render, rendered, useMemo, provided; simpl.
  destruct (strict_eq st s) eqn:E; simpl.
  - unfold context_deps_eqb; simpl. rewrite E, Nat.eqb_refl; simpl.
    rewrite Nat.eqb_refl. reflexivity.
  - unfold context_deps_eqb; simpl. rewrite E; simpl.
    replace (Nat.eqb (S no) xi) with false
      by (symmetry; apply Nat.eqb_neq; lia).
    reflexivity.
Qed.

Lemma memo_ok_rendered (s : AiState) (c : Config) :
  memo_ok c -> memo_ok (rendered s c).
Proof.
  intros (Hd & Hv & Hxd & Hxv & Hlt1 & Hlt2).
  unfold memo_ok, rendered, provided in *; simpl.
  destruct (strict_eq (aiState c) s) eqn:E; simpl.
  - apply strict_eq_iff in E. subst s. repeat split; assumption.
  - repeat split; lia.
Qed.

Lemma commit_eq (c : Config) :
  memo_ok c ->
  commit c = rendered (fold_left (fun _ v => v) (updates c) (aiState c)) c.
Proof. intros H. unfold commit. now apply render_eq. Qed.

Lemma set_eq (s : AiState) (c : Config) :
  memo_ok c -> set s c = rendered s (setAiState s c).
Proof.
  intros H. unfold set. rewrite commit_eq.
  - rewrite setAiState_eq at 1 2. simpl. now rewrite fold_last.
  - rewrite setAiState_eq. exact H.
Qed.

Lemma timers_left_ok (c : Config) : timer_ok c -> timers_left c = [].
Proof.
  intros [H _]. unfold timers_left. destruct (timerRef c) as [h|]; [|exact H].
  destruct H as (d & -> & _). unfold remove_timer; simpl.
  now rewrite Pos.eqb_refl.
Qed.

(** ** The invariant is kept *)

Lemma wf_mount (t0 : N) (h0 : positive) : wf (mount t0 h0).
Proof.
  unfold wf, timer_ok, memo_ok, mount, armed, provided; simpl.
  repeat split; auto using NoDup_nil.
Qed.

Lemma wf_set (s : AiState) (c : Config) : wf c -> wf (set s c).
Proof.
  intros (Hu & Ht & Hm & Hc). rewrite (set_eq _ _ Hm).
  assert (Hm' : memo_ok (setAiState s c)) by (rewrite setAiState_eq; exact Hm).
  split; [reflexivity|]. split; [|split].
  - rewrite setAiState_eq, (timers_left_ok _ Ht).
    unfold timer_ok, armed, rendered; simpl.
    destruct (transient s); simpl; split; trivial.
    eexists; split; [reflexivity|lia].
  - now apply memo_ok_rendered.
  - rewrite setAiState_eq. exact Hc.
Qed.

Lemma wf_reset (c : Config) : wf c -> wf (reset c).
Proof. apply (wf_set IDLE). Qed.

Lemma existsb_eqb_false (k : nat) (l : list nat) :
  existsb (Nat.eqb k) l = false -> ~ In k l.
Proof.
  intros H Hin. assert (E : existsb (Nat.eqb k) l = true).
  { apply existsb_exists. exists k. split; [exact Hin|apply Nat.eqb_refl]. }
  congruence.
Qed.

Lemma wf_subscribe (k : nat) (c : Config) : wf c -> wf (subscribe k c).
Proof.
  intros (Hu & Ht & Hm & Hc). unfold subscribe.
  destruct (existsb (Nat.eqb k) (consumers c)) eqn:E.
  - repeat split; assumption || apply Ht || apply Hm.
  - split; [exact Hu|]. split; [exact Ht|]. split; [exact Hm|].
    simpl. apply NoDup_app; [exact Hc|repeat constructor; intros []|].
    intros x Hx [<-|[]]. now apply (existsb_eqb_false _ _ E).
Qed.

(** A timer that fires in a well-formed configuration is the one of
    [timerRef]. *)
Lemma fire_eq (h : positive) (t : N) (c : Config) :
  wf c -> pending c = [mkTimer h t Expire] ->
  fire (mkTimer h t Expire) c =
  rendered IDLE
    (mkConfig (N.max (now c) t) (next_handle c) [] (next_oid c) (aiState c)
       [IDLE] None (checksMemo c) (contextMemo c) (consumers c) (renders c)).
Proof.
  intros (Hu & Ht & Hm & Hc) Hp. unfold fire. rewrite commit_eq.
  - simpl. rewrite Hp, Hu. unfold remove_timer; simpl.
    rewrite Pos.eqb_refl. reflexivity.
  - exact Hm.
Qed.

Lemma wf_fire (h : positive) (t : N) (c : Config) :
  wf c -> pending c = [mkTimer h t Expire] ->
  wf (fire (mkTimer h t Expire) c).
Proof.
  intros H Hp. rewrite (fire_eq _ _ _ H Hp).
  destruct H as (Hu & Ht & Hm & Hc).
  split; [reflexivity|]. split; [|split].
  - unfold timer_ok, armed; simpl. split; reflexivity.
  - now apply memo_ok_rendered.
  - exact Hc.
Qed.

Lemma wf_with_now (t : N) (c : Config) :
  wf c -> (forall x, In x (pending c) -> t < due x) -> wf (with_now t c).
Proof.
  intros (Hu & [Ht Ha] & Hm & Hc) Hd.
  split; [exact Hu|]. split; [|split; assumption].
  split; [|exact Ha]. simpl.
  destruct (timerRef c) as [h|]; [|exact Ht].
  destruct Ht as (d & Hp & _). exists d. split; [exact Hp|].
  apply (Hd (mkTimer h d Expire)). rewrite Hp. now left.
Qed.

Lemma advance_cases (d : N) (c : Config) : wf c -> advance_case d c.
Proof.
  intros H. pose proof H as (Hu & [Ht Ha] & Hm & Hc).
  destruct (timerRef c) as [h|] eqn:Er.
  - destruct Ht as (t & Hp & Hlt).
    destruct (N.leb_spec t (now c + d)) as [Hle|Hgt].
    + eapply adv_fire; eauto. unfold advance, next_timer. rewrite Hp. simpl.
      unfold next_timer. rewrite Hp. simpl.
      apply N.leb_le in Hle. rewrite Hle. reflexivity.
    + eapply adv_wait; eauto. unfold advance, next_timer. rewrite Hp. simpl.
      unfold next_timer. rewrite Hp. simpl.
      apply N.leb_gt in Hgt. rewrite Hgt. reflexivity.
  - apply adv_idle; auto. unfold advance. rewrite Ht. reflexivity.
Qed.

Lemma wf_advance (d : N) (c : Config) : wf c -> wf (advance d c).
Proof.
  intros H. destruct (advance_cases d c H) as [Hr Hp E|h t Hr Hp Hlt E|h t Hr Hp Hle E];
    rewrite E.
  - apply wf_with_now; [exact H|]. rewrite Hp. intros x [].
  - apply wf_with_now; [exact H|]. rewrite Hp. intros x [<-|[]]. exact Hlt.
  - apply wf_with_now; [now apply wf_fire|].
    rewrite (fire_eq _ _ _ H Hp). simpl. intros x [].
Qed.

Lemma reachable_wf (c : Config) : reachable c -> wf c.
Proof.
  induction 1; auto using wf_mount, wf_subscribe, wf_set, wf_reset, wf_advance.
Qed.

(** ** The event loop runs every due timer *)

Lemma render_pending (c : Config) : pending (render c) = pending c.
Proof.
  unfold render, useMemo.
  destruct (strict_eq _ _); destruct (context_deps_eqb _ _); reflexivity.
Qed.

Lemma fire_pending (t : Timer) (c : Config) :
  pending (fire t c) = remove_timer (handle t) (pending c).
Proof.
  unfold fire, commit. rewrite render_pending.
  destruct t as [h d []]. reflexivity.
Qed.

Lemma earliest_In (l : list Timer) (t : Timer) : earliest l = Some t -> In t l.
Proof.
  revert t. induction l as [|a l IH]; simpl; intros t H; [discriminate|].
  destruct (earliest l) as [u|].
  - destruct (due u <? due a); injection H as <-; [right|left]; auto.
  - injection H as <-. now left.
Qed.

Lemma remove_timer_length (h : positive) (l : list Timer) :
  (List.length (remove_timer h l) <= List.length l)%nat.
Proof. apply filter_length_le. Qed.

Lemma remove_timer_shorter (t : Timer) (l : list Timer) :
  In t l -> (List.length (remove_timer (handle t) l) < List.length l)%nat.
Proof.
  induction l as [|a l IH]; simpl; intros H; [contradiction|].
  destruct (Pos.eqb_spec (handle a) (handle t)) as [E|E]; simpl.
  - pose proof (remove_timer_length (handle t) l). lia.
  - destruct H as [->|H]; [congruence|]. apply IH in H. lia.
Qed.

Lemma run_timers_done (fuel : nat) (limit : N) (c : Config) :
  (List.length (pending c) <= fuel)%nat ->
  next_timer limit (run_timers fuel limit c) = None.
Proof.
  revert c. induction fuel as [|f IH]; intros c Hl; simpl.
  - destruct (pending c) eqn:E; [|simpl in Hl; lia].
    unfold next_timer. now rewrite E.
  - destruct (next_timer limit c) as [t|] eqn:E; [|exact E].
    apply IH. rewrite fire_pending.
    assert (Hin : In t (pending c)).
    { unfold next_timer in E. destruct (earliest (pending c)) as [u|] eqn:Eu;
        [|discriminate].
      destruct (due u <=? limit); [|discriminate].
      injection E as <-. now apply earliest_In. }
    apply remove_timer_shorter in Hin. lia.
Qed.

(** After [advance], in any configuration whatever, no pending timer is due:
    the fuel of [run_timers] was enough. *)
Lemma advance_none_due (d : N) (c : Config) :
  next_timer (now c + d) (advance d c) = None.
Proof.
  unfold advance.
  exact (run_timers_done (List.length (pending c)) (now c + d) c (Nat.le_refl _)).
Qed.

(** ** What a task does to a well-formed configuration *)

Lemma get_wf (c : Config) : wf c -> get c = aiState c.
Proof. intros (_ & _ & (_ & _ & _ & H & _) & _). unfold get. now rewrite H. Qed.

Lemma provided_wf (c : Config) :
  wf c ->
  oval (provided c) = contextValue_of (aiState c) (stateChecks_of (aiState c)).
Proof. now intros (_ & _ & (_ & _ & _ & H & _) & _). Qed.

(** Time passing: before the due time nothing changes, from the due time on
    the state is [IDLE] and nothing is armed. *)
Lemma advance_now (d : N) (c : Config) : now (advance d c) = now c + d.
Proof. reflexivity. Qed.

Lemma advance_early (d t : N) (h : positive) (c : Config) :
  wf c -> pending c = [mkTimer h t Expire] -> now c + d < t ->
  advance d c = with_now (now c + d) c.
Proof.
  intros H Hp Hlt.
  destruct (advance_cases d c H) as [Hr Hp' E|h' t' Hr Hp' Hlt' E|h' t' Hr Hp' Hle E];
    try exact E.
  rewrite Hp in Hp'. injection Hp' as <- <-. lia.
Qed.

Lemma advance_late (d t : N) (h : positive) (c : Config) :
  wf c -> pending c = [mkTimer h t Expire] -> t <= now c + d ->
  aiState (advance d c) = IDLE /\ timerRef (advance d c) = None /\
  pending (advance d c) = [].
Proof.
  intros H Hp Hle.
  destruct (advance_cases d c H) as [Hr Hp' E|h' t' Hr Hp' Hlt' E|h' t' Hr Hp' Hle' E].
  - rewrite Hp in Hp'. discriminate.
  - rewrite Hp in Hp'. injection Hp' as <- <-. lia.
  - rewrite E, (fire_eq _ _ _ H Hp'). repeat split.
Qed.

Lemma advance_unarmed (d : N) (c : Config) :
  pending c = [] -> advance d c = with_now (now c + d) c.
Proof. intros Hp. unfold advance. now rewrite Hp. Qed.

Section SetTask.

Variable c : Config.
Hypothesis Hwf : wf c.

Let Hmemo : memo_ok c := proj1 (proj2 (proj2 Hwf)).
Let Htimer : timer_ok c := proj1 (proj2 Hwf).

Ltac set_fields :=
  rewrite (set_eq _ _ Hmemo), setAiState_eq;
  try rewrite (timers_left_ok _ Htimer); reflexivity.

Lemma set_aiState (s : AiState) : aiState (set s c) = s.
Proof. set_fields. Qed.

Lemma set_now (s : AiState) : now (set s c) = now c.
Proof. set_fields. Qed.

Lemma set_timerRef (s : AiState) :
  timerRef (set s c) = if transient s then Some (next_handle c) else None.
Proof. set_fields. Qed.

Lemma set_next_handle (s : AiState) :
  next_handle (set s c) =
  if transient s then Pos.succ (next_handle c) else next_handle c.
Proof. set_fields. Qed.

Lemma set_pending (s : AiState) :
  pending (set s c) =
  if transient s then [mkTimer (next_handle c) (now c + 2000) Expire] else [].
Proof. set_fields. Qed.

Lemma set_renders (s : AiState) :
  renders (set s c) =
  renders c ++
  if strict_eq (aiState c) s then []
  else map (fun k => (k, contextValue_of s (stateChecks_of s))) (consumers c).
Proof. set_fields. Qed.

Lemma set_get (s : AiState) : get (set s c) = s.
Proof. rewrite (get_wf _ (wf_set s c Hwf)). apply set_aiState. Qed.

Lemma set_observable (s : AiState) :
  observable (set s c) =
  (contextValue_of s (stateChecks_of s),
   if transient s then [now c + 2000] else []).
Proof.
  unfold observable.
  rewrite (provided_wf _ (wf_set s c Hwf)), set_aiState, set_pending.
  now destruct (transient s).
Qed.

(** After [set s], for [d] milliseconds with no other call. *)
Lemma set_then_wait (s : AiState) (d : N) :
  get (advance d (set s c)) =
  if transient s && (2000 <=? d) then IDLE else s.
Proof.
  pose proof (wf_set s c Hwf) as H1.
  rewrite (get_wf _ (wf_advance d _ H1)).
  pose proof (set_pending s) as Hp.
  destruct (transient s); cbn [andb].
  - destruct (N.leb_spec 2000 d) as [Hle|Hlt].
    + apply (advance_late d _ _ _ H1 Hp). rewrite set_now. lia.
    + rewrite (advance_early d _ _ _ H1 Hp).
      * apply set_aiState.
      * rewrite set_now. lia.
  - rewrite (advance_unarmed d _ Hp). apply set_aiState.
Qed.

End SetTask.

Lemma received_map (k : nat) (v : AiStateContextType) (l : list nat) :
  NoDup l -> In k l -> received k (map (fun j => (j, v)) l) = [v].
Proof.
  unfold received. induction 1 as [|a l Ha Hl IH]; intros Hin; [contradiction|].
  simpl. destruct (Nat.eqb_spec a k) as [->|Hne]; simpl.
  - f_equal. clear IH Hin Hl. induction l as [|b l IH]; [reflexivity|].
    simpl. destruct (Nat.eqb_spec b k) as [->|Hb].
    + exfalso. apply Ha. now left.
    + apply IH. intros Hk. apply Ha. now right.
  - destruct Hin as [->|Hin]; [congruence|]. now apply IH.
Qed.

Lemma notifications_app (c c' : Config) (l : list (nat * AiStateContextType)) :
  renders c' = renders c ++ l -> notifications c c' = l.
Proof.
  intros E. unfold notifications. rewrite E.
  rewrite skipn_app, skipn_all, Nat.sub_diag. reflexivity.
Qed.

(** ** Further facts about the provider *)

Lemma all_states_complete (s : AiState) : In s all_states.
Proof. destruct s; simpl; tauto. Qed.

Lemma AiState_value_inj (a b : AiState) :
  AiState_value a = AiState_value b -> a = b.
Proof.
  intros H. apply strict_eq_iff. unfold strict_eq. rewrite H.
  apply String.eqb_refl.
Qed.

(** Inside the task, before React commits, a consumer still reads the old
    state: the update is only queued. *)
Lemma setAiState_queues (s : AiState) (c : Config) :
  get (setAiState s c) = get c /\ updates (setAiState s c) = updates c ++ [s].
Proof. rewrite setAiState_eq. split; reflexivity. Qed.

(** Unmounting the provider cancels the armed timer, so that no callback of
    the provider runs afterwards. *)
Lemma unmount_cancels (d : N) (c : Config) :
  wf c -> pending (unmount c) = [] /\
  aiState (advance d (unmount c)) = aiState c.
Proof.
  intros (_ & [Ht _] & _ & _).
  assert (Hp : pending (unmount c) = []).
  { unfold unmount. destruct (timerRef c) as [h|]; [|exact Ht].
    destruct Ht as (t & Hp & _). simpl. rewrite Hp. unfold remove_timer; simpl.
    now rewrite Pos.eqb_refl. }
  split; [exact Hp|]. unfold advance. rewrite Hp. simpl.
  unfold unmount. now destruct (timerRef c).
Qed.

(** ** The store contract *)

(** C2: after [set INTERRUPTED], and in the same way after [set WAITING],
    with no other call, the state is unchanged and the timer armed as long as
    fewer than 2000 ms went by; once 2000 ms have gone by the timer has fired,
    [get] returns [IDLE], the handle in [timerRef] is cleared and the host
    holds no timer. *)
Theorem transient_state_expires (s : AiState) (d : N) (c : Config) :
  reachable c -> s = INTERRUPTED \/ s = WAITING ->
  (d < 2000 ->
   get (advance d (set s c)) = s /\ armed (advance d (set s c)) = true) /\
  (2000 <= d ->
   get (advance d (set s c)) = IDLE /\
   timerRef (advance d (set s c)) = None /\
   pending (advance d (set s c)) = []).
Proof.
  intros H Hs. apply reachable_wf in H.
  assert (Ht : transient s = true) by (destruct Hs; subst s; reflexivity).
  pose proof (wf_set s c H) as H1.
  pose proof (set_pending c H s) as Hp. rewrite Ht in Hp.
  pose proof (set_then_wait c H s d) as Hg. rewrite Ht in Hg. cbn [andb] in Hg.
  split; intros Hd.
  - apply N.leb_gt in Hd. rewrite Hd in Hg. split; [exact Hg|].
    apply N.leb_gt in Hd.
    rewrite (advance_early d _ _ _ H1 Hp) by (rewrite (set_now _ H _); lia).
    unfold armed; simpl. rewrite (set_timerRef _ H _), Ht. reflexivity.
  - pose proof Hd as Hd'. apply N.leb_le in Hd'. rewrite Hd' in Hg.
    split; [exact Hg|].
    apply (advance_late d _ _ _ H1 Hp). rewrite (set_now _ H _). lia.
Qed.

Lemma transient_state_expires_witness :
  get (advance 2000 (set INTERRUPTED (mount 0 1))) = IDLE /\
  get (advance 1999 (set WAITING (mount 0 1))) = WAITING.
Proof.
  split.
  - pose proof (transient_state_expires INTERRUPTED 2000 (mount 0 1)
                  (reach_mount 0 1) (or_introl eq_refl)) as (_ & H).
    apply H. vm_compute. discriminate.
  - pose proof (transient_state_expires WAITING 1999 (mount 0 1)
                  (reach_mount 0 1) (or_intror eq_refl)) as (H & _).
    apply H. reflexivity.
Defined.

(** C3, against the claim as stated: [set WAITING] at time 0, then
    [set INTERRUPTED] at 1000 ms, before the expiry; at 3000 ms, past the
    deadline of the first timer, [get] is [IDLE], not the second state. *)
Lemma late_wait_loses_second_state :
  1000 < 2000 /\ 2000 <= 1000 + 2000 /\
  get (advance 2000 (set INTERRUPTED (advance 1000 (set WAITING (mount 0 1)))))
  <> INTERRUPTED.
Proof. repeat split; vm_compute; discriminate. Qed.

(** C3, amended: for every state [s2], [set WAITING] followed by [set s2]
    before the expiry cancels the first timer, which never fires.  When [s2]
    is not transient [get] equals [s2] at every later time; when [s2] is
    [INTERRUPTED] or [WAITING], [get] equals [s2] until 2000 ms after the
    second call and is [IDLE] from then on, through the timer of [s2]. *)
Theorem superseded_timer_never_fires (s2 : AiState) (d1 d2 : N) (c : Config) :
  reachable c -> d1 < 2000 ->
  let c1 := set WAITING c in
  let c2 := set s2 (advance d1 c1) in
  timerRef c1 = Some (next_handle c) /\
  (forall t, In t (pending c2) -> handle t <> next_handle c) /\
  (transient s2 = false -> get (advance d2 c2) = s2) /\
  (transient s2 = true -> d2 < 2000 -> get (advance d2 c2) = s2) /\
  (transient s2 = true -> 2000 <= d2 -> get (advance d2 c2) = IDLE).
Proof.
  intros H Hd1 c1 c2. apply reachable_wf in H.
  pose proof (wf_set WAITING c H) as H1. fold c1 in H1.
  pose proof (wf_advance d1 c1 H1) as H1'.
  pose proof (set_pending c H WAITING) as Hp1. fold c1 in Hp1. simpl in Hp1.
  assert (E1 : advance d1 c1 = with_now (now c1 + d1) c1).
  { apply (advance_early d1 _ _ _ H1 Hp1).
    unfold c1. rewrite (set_now _ H _). lia. }
  split; [exact (set_timerRef c H WAITING)|]. split; [|repeat split].
  - unfold c2. rewrite (set_pending _ H1' _), E1. simpl.
    unfold c1. rewrite (set_next_handle _ H _). simpl.
    destruct (transient s2); [intros t [<-|[]]; simpl; lia|intros t []].
  - intros Ht. unfold c2. rewrite (set_then_wait _ H1' _ _), Ht. reflexivity.
  - intros Ht Hd. unfold c2. rewrite (set_then_wait _ H1' _ _), Ht.
    apply N.leb_gt in Hd. now rewrite Hd.
  - intros Ht Hd. unfold c2. rewrite (set_then_wait _ H1' _ _), Ht.
    apply N.leb_le in Hd. now rewrite Hd.
Qed.

Lemma superseded_timer_never_fires_witness :
  get (advance 5000 (set LISTENING (advance 1000 (set WAITING (mount 0 1)))))
  = LISTENING.
Proof.
  pose proof (superseded_timer_never_fires LISTENING 1000 5000 (mount 0 1)
                (reach_mount 0 1) eq_refl) as (_ & _ & H & _).
  exact (H eq_refl).
Defined.

(** C4, against the claim as stated: [set INTERRUPTED] at time 0 and again
    at 1500 ms; at 3000 ms the state is still [INTERRUPTED], not [IDLE]. *)
Lemma reentry_still_interrupted_at_3000 :
  now (advance 1500 (set INTERRUPTED (advance 1500 (set INTERRUPTED (mount 0 1)))))
  = 3000 /\
  get (advance 1500 (set INTERRUPTED (advance 1500 (set INTERRUPTED (mount 0 1)))))
  <> IDLE.
Proof. split; vm_compute; [reflexivity|discriminate]. Qed.

(** C4, amended: entering the same transient state again restarts the expiry
    window.  After [set INTERRUPTED] at time 0 and again at 1500 ms, the
    state is [INTERRUPTED] as long as fewer than 2000 ms have gone by since
    the second call, so at 2900 ms and at 3000 ms, and it is [IDLE] from
    3500 ms on, 2000 ms after the second call. *)
Theorem reentry_restarts_expiry (d : N) (c : Config) :
  reachable c ->
  let c2 := set INTERRUPTED (advance 1500 (set INTERRUPTED c)) in
  now c2 = now c + 1500 /\
  (d < 2000 -> get (advance d c2) = INTERRUPTED) /\
  (2000 <= d -> get (advance d c2) = IDLE) /\
  get (advance 1400 c2) = INTERRUPTED /\
  get (advance 1500 c2) = INTERRUPTED /\
  get (advance 2000 c2) = IDLE.
Proof.
  intros H c2. apply reachable_wf in H.
  pose proof (wf_advance 1500 _ (wf_set INTERRUPTED c H)) as H1.
  assert (G : forall x, get (advance x c2) = if 2000 <=? x then IDLE else INTERRUPTED).
  { intros x. unfold c2. now rewrite (set_then_wait _ H1 _ _). }
  split; [|repeat split].
  - unfold c2. rewrite (set_now _ H1 _), advance_now, (set_now _ H _).
    reflexivity.
  - intros Hd. rewrite G. apply N.leb_gt in Hd. now rewrite Hd.
  - intros Hd. rewrite G. apply N.leb_le in Hd. now rewrite Hd.
  - now rewrite G.
  - now rewrite G.
  - now rewrite G.
Qed.

Lemma reentry_restarts_expiry_witness :
  reachable (mount 0 1) /\
  get (advance 1500 (set INTERRUPTED (advance 1500 (set INTERRUPTED (mount 0 1)))))
  = INTERRUPTED.
Proof.
  split; [apply reach_mount|].
  pose proof (reentry_restarts_expiry 0 (mount 0 1) (reach_mount 0 1))
    as (_ & _ & _ & _ & H & _).
  exact H.
Defined.

Lemma wf_timer_invariant (c : Config) : wf c -> timer_invariant c.
Proof.
  intros H. pose proof H as (_ & [Ht Ha] & _ & _).
  unfold timer_invariant, armed in *. rewrite (get_wf _ H).
  destruct (timerRef c) as [h|].
  - destruct Ht as (t & Hp & _). rewrite Hp. split; [simpl; lia|]. split.
    + split; [intros _|discriminate].
      destruct (aiState c); try discriminate Ha; auto.
    + intros h'. split.
      * intros [= <-]. now exists t.
      * intros (t' & [= <- _]). reflexivity.
  - rewrite Ht. split; [simpl; lia|]. split.
    + split; [congruence|]. intros [E|E]; rewrite E in Ha; discriminate Ha.
    + intros h'. split; [discriminate|]. intros (t' & [=]).
Qed.

(** C7: [reset] is [set IDLE]: from every reachable configuration, whatever
    the state and the pending timer, it leads to the configuration that
    [set IDLE] leads to, where the state is [IDLE], [timerRef] is cleared and
    the host holds no timer of the provider. *)
Theorem reset_is_set_idle (c : Config) :
  reachable c ->
  reset c = set IDLE c /\
  get (reset c) = IDLE /\ timerRef (reset c) = None /\ pending (reset c) = [].
Proof.
  intros H. apply reachable_wf in H. split; [reflexivity|].
  change (reset c) with (set IDLE c). repeat split.
  - now apply set_get.
  - now rewrite (set_timerRef _ H _).
  - now rewrite (set_pending _ H _).
Qed.

Lemma reset_is_set_idle_witness :
  reachable (advance 500 (set INTERRUPTED (mount 0 1))) /\
  get (reset (advance 500 (set INTERRUPTED (mount 0 1)))) = IDLE /\
  pending (reset (advance 500 (set INTERRUPTED (mount 0 1)))) = [].
Proof.
  split; [apply reach_advance, reach_set, reach_mount|].
  pose proof (reset_is_set_idle (advance 500 (set INTERRUPTED (mount 0 1)))
                (reach_advance _ _ (reach_set _ _ (reach_mount 0 1))))
    as (_ & H1 & _ & H2).
  split; assumption.
Defined.

(** C8, against the claim as stated: a consumer subscribed while the state is
    [LOADING] receives nothing for a call [set LOADING]. *)
Lemma same_state_not_notified :
  In 7%nat (consumers (subscribe 7 (mount 0 1))) /\
  received 7 (notifications (subscribe 7 (mount 0 1))
                (set LOADING (subscribe 7 (mount 0 1)))) = [].
Proof. split; [now left|reflexivity]. Qed.

(** C9: outside a provider, the hook, and with it every read and every call
    of [setAiState] or [resetState], throws, and always the same error, in
    place of returning a default; below a provider the hook returns, and
    [setAiState] yields the next configuration for every state of the
    enumeration. *)
Theorem useAiState_outside_provider :
  (useAiState None = Throw usage_error /\
   read_aiState None = Throw usage_error /\
   (forall s, call_setAiState None s = Throw usage_error) /\
   call_resetState None = Throw usage_error) /\
  (forall scope e, useAiState scope = Throw e -> scope = None /\ e = usage_error) /\
  (forall c,
     read_aiState (Some c) = Return (get c) /\
     (forall s, call_setAiState (Some c) s = Return (set s c)) /\
     call_resetState (Some c) = Return (reset c)).
Proof.
  split; [repeat split|split].
  - intros [c|] e; simpl; [discriminate|]. intros [= <-]. now split.
  - intros c. repeat split.
Qed.

(** C10: last write wins.  From every reachable configuration, [set s1]
    followed by [set s2], at once or [d] milliseconds later, shows the same
    context value and the same timer deadlines as [set s2] alone at that
    time: the state is [s2], a timer is armed if and only if [s2] is
    [INTERRUPTED] or [WAITING], and it is due 2000 ms after the second
    call. *)
Theorem last_write_wins (s1 s2 : AiState) (d : N) (c : Config) :
  reachable c ->
  observable (set s2 (set s1 c)) = observable (set s2 c) /\
  observable (set s2 (advance d (set s1 c))) = observable (set s2 (advance d c)) /\
  get (set s2 (advance d (set s1 c))) = s2 /\
  armed (set s2 (advance d (set s1 c))) = transient s2 /\
  map due (pending (set s2 (advance d (set s1 c)))) =
    (if transient s2 then [now c + d + 2000] else []).
Proof.
  intros H. apply reachable_wf in H.
  pose proof (wf_set s1 c H) as H1.
  pose proof (wf_advance d _ H1) as H2.
  pose proof (wf_advance d _ H) as H3.
  repeat split.
  - rewrite (set_observable _ H1 _), (set_observable _ H _), (set_now _ H _).
    reflexivity.
  - rewrite (set_observable _ H2 _), (set_observable _ H3 _), !advance_now,
      (set_now _ H _). reflexivity.
  - now apply set_get.
  - unfold armed. rewrite (set_timerRef _ H2 _). now destruct (transient s2).
  - rewrite (set_pending _ H2 _), advance_now, (set_now _ H _).
    now destruct (transient s2).
Qed.

Lemma last_write_wins_witness :
  reachable (mount 0 1) /\
  observable (set WAITING (set LISTENING (mount 0 1)))
  = observable (set WAITING (mount 0 1)).
Proof.
  split; [apply reach_mount|].
  pose proof (last_write_wins LISTENING WAITING 0 (mount 0 1) (reach_mount 0 1))
    as (H & _).
  exact H.
Defined.

(** ** Beyond the contract: disposal, stability, memoisation *)

Lemma advance_quiet (d : N) (c : Config) :
  wf c -> armed c = false -> advance d c = with_now (now c + d) c.
Proof.
  intros H Ha. apply advance_unarmed.
  destruct H as (_ & [Ht _] & _). unfold armed in Ha.
  destruct (timerRef c); [discriminate|exact Ht].
Qed.

(** X1: unmounting the provider cancels the armed timer; however long one
    waits afterwards the state read is the one at disposal and no consumer
    is rendered again. *)
Theorem unmount_disposes (d : N) (c : Config) :
  reachable c ->
  pending (unmount c) = [] /\
  get (advance d (unmount c)) = get c /\
  renders (advance d (unmount c)) = renders c.
Proof.
  intros H. apply reachable_wf in H.
  destruct (unmount_cancels d c H) as [Hp _].
  split; [exact Hp|]. rewrite (advance_unarmed d _ Hp).
  unfold unmount. destruct (timerRef c); split; reflexivity.
Qed.

Lemma unmount_disposes_witness :
  reachable (set INTERRUPTED (mount 0 1)) /\
  get (advance 5000 (unmount (set INTERRUPTED (mount 0 1)))) = INTERRUPTED /\
  get (advance 5000 (set INTERRUPTED (mount 0 1))) = IDLE.
Proof.
  split; [apply reach_set, reach_mount|].
  pose proof (unmount_disposes 5000 (set INTERRUPTED (mount 0 1))
                (reach_set _ _ (reach_mount 0 1))) as (_ & H & _).
  split; [exact H|reflexivity].
Defined.

(** X2: time alone never changes a state that is not transient: in a
    reachable configuration whose state is neither [INTERRUPTED] nor
    [WAITING] (so also [LOADING] right after mounting), any pause moves the
    clock and nothing else, and no consumer is rendered. *)
Theorem stable_state_never_expires (d : N) (c : Config) :
  reachable c -> get c <> INTERRUPTED -> get c <> WAITING ->
  advance d c = with_now (now c + d) c /\
  get (advance d c) = get c /\
  notifications c (advance d c) = [].
Proof.
  intros H Hi Hw. apply reachable_wf in H.
  rewrite (get_wf _ H) in Hi, Hw.
  assert (Ha : armed c = false).
  { destruct H as (_ & [_ Ha] & _). rewrite <- Ha.
    destruct (aiState c); try reflexivity; congruence. }
  rewrite (advance_quiet d c H Ha). repeat split.
  unfold notifications; simpl. apply skipn_all.
Qed.

Lemma stable_state_never_expires_witness :
  reachable (mount 0 1) /\ get (advance 60000 (mount 0 1)) = LOADING.
Proof.
  split; [apply reach_mount|].
  pose proof (stable_state_never_expires 60000 (mount 0 1) (reach_mount 0 1))
    as H.
  refine (eq_trans (proj1 (proj2 (H _ _))) eq_refl);
    vm_compute; discriminate.
Defined.

(** X3: in every reachable configuration, not only right after a call, the
    value given to consumers carries the committed state, and its six
    predicates answer exactly the comparison with that state: one of them is
    true, the one of the current state. *)
Theorem context_agrees_with_state (c : Config) :
  reachable c ->
  get c = aiState c /\
  oval (provided c) = value_of (aiState c) /\
  (forall s, predicate_of s (oval (provided c)) = true <-> s = aiState c) /\
  count_occ bool_dec (predicates (oval (provided c))) true = 1%nat.
Proof.
  intros H. apply reachable_wf in H.
  split; [now apply get_wf|]. rewrite (provided_wf _ H).
  split; [reflexivity|]. split.
  - intros s. split.
    + destruct s, (aiState c); intros Hp; try reflexivity;
        vm_compute in Hp; discriminate Hp.
    + intros ->. destruct (aiState c); reflexivity.
  - destruct (aiState c); reflexivity.
Qed.

Lemma context_agrees_with_state_witness :
  reachable (advance 2000 (set WAITING (mount 0 1))) /\
  isIdle (oval (provided (advance 2000 (set WAITING (mount 0 1))))) = true.
Proof.
  split; [apply reach_advance, reach_set, reach_mount|].
  pose proof (context_agrees_with_state _
                (reach_advance 2000 _ (reach_set WAITING _ (reach_mount 0 1))))
    as (_ & _ & H & _).
  exact (proj2 (H IDLE) eq_refl).
Defined.

(** X4: the six strings of the enumeration are pairwise different, so that
    comparing two states with [===] is comparing the variants, and the
    enumeration has no seventh value. *)
Theorem AiState_values_distinct :
  NoDup (map AiState_value all_states) /\
  (forall a b, strict_eq a b = true <-> a = b) /\
  (forall a b, AiState_value a = AiState_value b -> a = b) /\
  (forall s, In s all_states).
Proof.
  split; [|split; [|split]].
  - repeat constructor; simpl; intros H;
      repeat (destruct H as [H|H]; [discriminate H|]); exact H.
  - exact strict_eq_iff.
  - exact AiState_value_inj.
  - exact all_states_complete.
Qed.

(** ** Beyond the contract: expiry *)

(** What consumers are rendered with while time passes: nothing, or the
    [IDLE] value once when the armed timer fires. *)
Lemma advance_renders (d : N) (c : Config) :
  wf c ->
  renders (advance d c) =
  renders c ++
  match pending c with
  | t :: _ =>
      if due t <=? now c + d
      then map (fun k => (k, value_of IDLE)) (consumers c)
      else []
  | [] => []
  end.
Proof.
  intros H.
  destruct (advance_cases d c H) as [Hr Hp E|h t Hr Hp Hlt E|h t Hr Hp Hle E];
    rewrite E, Hp; simpl.
  - now rewrite app_nil_r.
  - apply N.leb_gt in Hlt. rewrite Hlt. now rewrite app_nil_r.
  - rewrite (fire_eq _ _ _ H Hp). simpl.
    apply N.leb_le in Hle. rewrite Hle.
    destruct H as (_ & [_ Ha] & _). unfold armed in Ha. rewrite Hr in Ha.
    destruct (aiState c); try discriminate Ha; reflexivity.
Qed.

Lemma advance_consumers (d : N) (c : Config) :
  wf c -> consumers (advance d c) = consumers c.
Proof.
  intros H.
  destruct (advance_cases d c H) as [Hr Hp E|h t Hr Hp Hlt E|h t Hr Hp Hle E];
    rewrite E; try reflexivity.
  now rewrite (fire_eq _ _ _ H Hp).
Qed.

Lemma set_consumers (s : AiState) (c : Config) :
  wf c -> consumers (set s c) = consumers c.
Proof.
  intros (_ & _ & Hm & _). rewrite (set_eq _ _ Hm), setAiState_eq. reflexivity.
Qed.

(** X5: the expiry goes through the same provider as a call does.  After
    [set INTERRUPTED] or [set WAITING], no consumer is rendered while fewer
    than 2000 ms went by; once the timer has fired every subscribed consumer
    has been rendered exactly once more, with the [IDLE] value. *)
Theorem expiry_notifies_once (s : AiState) (k : nat) (d : N) (c : Config) :
  reachable c -> In k (consumers c) -> s = INTERRUPTED \/ s = WAITING ->
  (d < 2000 -> notifications (set s c) (advance d (set s c)) = []) /\
  (2000 <= d ->
   received k (notifications (set s c) (advance d (set s c)))
   = [value_of IDLE] /\
   isIdle (value_of IDLE) = true /\
   oval (provided (advance d (set s c))) = value_of IDLE).
Proof.
  intros H Hk Hs. apply reachable_wf in H.
  assert (Ht : transient s = true) by (destruct Hs; subst s; reflexivity).
  pose proof (wf_set s c H) as H1.
  pose proof (advance_renders d _ H1) as Hr.
  rewrite (set_pending c H s), Ht in Hr. cbn [due] in Hr.
  rewrite (set_now c H s), (set_consumers s c H) in Hr.
  split; intros Hd.
  - replace (now c + 2000 <=? now c + d) with false in Hr
      by (symmetry; apply N.leb_gt; lia).
    now rewrite (notifications_app _ _ _ Hr).
  - replace (now c + 2000 <=? now c + d) with true in Hr
      by (symmetry; apply N.leb_le; lia).
    rewrite (notifications_app _ _ _ Hr). split; [|split].
    + apply received_map; [|exact Hk]. now destruct H as (_ & _ & _ & Hn).
    + reflexivity.
    + rewrite (provided_wf _ (wf_advance d _ H1)).
      pose proof (set_then_wait c H s d) as Hg.
      rewrite (get_wf _ (wf_advance d _ H1)), Ht in Hg. cbn [andb] in Hg.
      replace (2000 <=? d) with true in Hg by (symmetry; apply N.leb_le; lia).
      now rewrite Hg.
Qed.

Lemma expiry_notifies_once_witness :
  In 7%nat (consumers (subscribe 7 (mount 0 1))) /\
  received 7 (notifications (set WAITING (subscribe 7 (mount 0 1)))
                (advance 2500 (set WAITING (subscribe 7 (mount 0 1)))))
  = [value_of IDLE].
Proof.
  split; [now left|].
  pose proof (expiry_notifies_once WAITING 7 2500 (subscribe 7 (mount 0 1))
                (reach_subscribe _ _ (reach_mount 0 1)) (or_introl eq_refl)
                (or_intror eq_refl)) as (_ & H).
  apply H. vm_compute. discriminate.
Defined.

Lemma reachable_deadline (c : Config) : reachable c -> deadline_ok c.
Proof.
  induction 1 as [t0 h0|k c H IH|s c H IH|c H IH|d c H IH]; unfold deadline_ok.
  - intros t [].
  - unfold subscribe. destruct (existsb _ _); exact IH.
  - apply reachable_wf in H. rewrite (set_pending c H s), (set_now c H s).
    destruct (transient s); [intros t [<-|[]]; simpl; lia|intros t []].
  - apply reachable_wf in H. unfold reset, resetState.
    fold (set IDLE c). rewrite (set_pending c H IDLE). intros t [].
  - apply reachable_wf in H.
    destruct (advance_cases d c H) as [Hr Hp E|h t Hr Hp Hlt E|h t Hr Hp Hle E];
      rewrite E; simpl.
    + rewrite Hp. intros t [].
    + intros x Hx. specialize (IH x Hx). lia.
    + rewrite (fire_eq _ _ _ H Hp). simpl. intros x [].
Qed.

(** X7: a transient state never lasts longer than the expiry delay.  From
    every reachable configuration, whatever was armed and whenever, 2000 ms
    with no call lead to a state that is neither [INTERRUPTED] nor [WAITING],
    with no timer armed. *)
Theorem quiet_period_settles (d : N) (c : Config) :
  reachable c -> 2000 <= d ->
  transient (get (advance d c)) = false /\
  (transient (get c) = true -> get (advance d c) = IDLE) /\
  timerRef (advance d c) = None /\
  pending (advance d c) = [].
Proof.
  intros H Hd. pose proof (reachable_deadline c H) as Hdl.
  apply reachable_wf in H. pose proof (wf_advance d c H) as H'.
  rewrite (get_wf _ H'), (get_wf _ H).
  destruct (advance_cases d c H) as [Hr Hp E|h t Hr Hp Hlt E|h t Hr Hp Hle E].
  - rewrite E; simpl. destruct H as (_ & [_ Ha] & _).
    unfold armed in Ha. rewrite Hr in Ha. rewrite Ha.
    repeat split; try assumption. discriminate.
  - exfalso. specialize (Hdl (mkTimer h t Expire)). rewrite Hp in Hdl.
    specialize (Hdl (or_introl eq_refl)). simpl in Hdl. lia.
  - destruct (advance_late d t h c H Hp Hle) as (Hs & Hr' & Hp').
    rewrite Hs. repeat split; assumption.
Qed.

Lemma quiet_period_settles_witness :
  reachable (set WAITING (advance 1500 (set INTERRUPTED (mount 0 1)))) /\
  get (advance 2000 (set WAITING (advance 1500 (set INTERRUPTED (mount 0 1)))))
  = IDLE.
Proof.
  split; [apply reach_set, reach_advance, reach_set, reach_mount|].
  pose proof (quiet_period_settles 2000 _
                (reach_set WAITING _
                   (reach_advance 1500 _ (reach_set INTERRUPTED _ (reach_mount 0 1)))))
    as H.
  refine (proj1 (proj2 (H _)) eq_refl). vm_compute. discriminate.
Defined.

(** ** Beyond the contract: consumers, batches and histories *)

Lemma received_app (k : nat) (l1 l2 : list (nat * AiStateContextType)) :
  received k (l1 ++ l2) = received k l1 ++ received k l2.
Proof. unfold received. now rewrite filter_app, map_app. Qed.

Lemma received_map_absent (k : nat) (v : AiStateContextType) (l : list nat) :
  ~ In k l -> received k (map (fun j => (j, v)) l) = [].
Proof.
  unfold received. induction l as [|a l IH]; intros Hn; [reflexivity|].
  simpl. destruct (Nat.eqb_spec a k) as [->|Hne].
  - exfalso. apply Hn. now left.
  - apply IH. intros Hk. apply Hn. now right.
Qed.

(** One render of the provider keeps every consumer up to date. *)
Lemma up_to_date_step (s : AiState) (c c' : Config) :
  wf c -> up_to_date c ->
  consumers c' = consumers c ->
  renders c' =
    renders c ++
    (if strict_eq (aiState c) s then []
     else map (fun k => (k, value_of s)) (consumers c)) ->
  oval (provided c') = value_of s ->
  up_to_date c'.
Proof.
  intros H Hu Hc Hr Hv k. destruct (Hu k) as [Hin Hout].
  rewrite Hc, Hr, received_app, Hv.
  pose proof H as (_ & _ & _ & Hnd).
  destruct (strict_eq (aiState c) s) eqn:E; split; intros Hk.
  - apply strict_eq_iff in E. subst s.
    destruct (Hin Hk) as (l & Hl). exists l.
    rewrite (provided_wf _ H) in Hl. rewrite Hl. apply app_nil_r.
  - rewrite (Hout Hk). reflexivity.
  - destruct (Hin Hk) as (l & Hl). exists (l ++ [oval (provided c)]).
    rewrite Hl, (received_map _ _ _ Hnd Hk). reflexivity.
  - rewrite (Hout Hk), (received_map_absent _ _ _ Hk). reflexivity.
Qed.

(** X8: no consumer is left with a stale value.  In every reachable
    configuration the last value each subscribed consumer was rendered with
    is the value provided now, after calls and after expiries alike, and a
    component that never subscribed was never rendered. *)
Theorem consumers_hold_current_value (c : Config) :
  reachable c -> up_to_date c.
Proof.
  induction 1 as [t0 h0|k0 c H IH|s c H IH|c H IH|d c H IH].
  - intros k. split; [intros []|reflexivity].
  - unfold subscribe. destruct (existsb (Nat.eqb k0) (consumers c)) eqn:E;
      [exact IH|].
    apply existsb_eqb_false in E. intros k. destruct (IH k) as [Hin Hout].
    simpl. rewrite received_app. unfold received at 2 4. simpl.
    destruct (Nat.eqb_spec k0 k) as [->|Hne]; simpl.
    + split; [intros _|intros Hn].
      * exists (received k (renders c)). reflexivity.
      * exfalso. apply Hn, in_or_app. right. now left.
    + split; intros Hk.
      * apply in_app_or in Hk. destruct Hk as [Hk|[Hk|[]]]; [|congruence].
        destruct (Hin Hk) as (l & Hl). exists l. rewrite Hl. apply app_nil_r.
      * rewrite Hout; [reflexivity|]. intros Hk'. apply Hk, in_or_app. now left.
  - apply reachable_wf in H.
    apply (up_to_date_step s c _ H IH (set_consumers s c H) (set_renders c H s)).
    rewrite (provided_wf _ (wf_set s c H)), (set_aiState c H s). reflexivity.
  - apply reachable_wf in H. change (reset c) with (set IDLE c).
    apply (up_to_date_step IDLE c _ H IH (set_consumers IDLE c H)
             (set_renders c H IDLE)).
    rewrite (provided_wf _ (wf_set IDLE c H)), (set_aiState c H IDLE).
    reflexivity.
  - apply reachable_wf in H.
    destruct (advance_cases d c H) as [Hr Hp E|h t Hr Hp Hlt E|h t Hr Hp Hle E];
      rewrite E; try exact IH.
    apply (up_to_date_step IDLE c _ H IH).
    + now rewrite (fire_eq _ _ _ H Hp).
    + now rewrite (fire_eq _ _ _ H Hp).
    + rewrite (fire_eq _ _ _ H Hp). unfold provided; simpl.
      destruct (strict_eq (aiState c) IDLE) eqn:Es; [|reflexivity].
      apply strict_eq_iff in Es. pose proof (provided_wf _ H) as Hv.
      unfold provided in Hv. rewrite Hv, Es. reflexivity.
Qed.

Lemma consumers_hold_current_value_witness :
  reachable (advance 2000 (set WAITING (subscribe 7 (mount 0 1)))) /\
  up_to_date (advance 2000 (set WAITING (subscribe 7 (mount 0 1)))).
Proof.
  split.
  - apply reach_advance, reach_set, reach_subscribe, reach_mount.
  - apply consumers_hold_current_value.
    apply reach_advance, reach_set, reach_subscribe, reach_mount.
Defined.

Lemma timers_left_held (c : Config) : timer_held c -> timers_left c = [].
Proof.
  unfold timer_held, timers_left. destruct (timerRef c) as [h|]; [|trivial].
  intros (d & -> & _). unfold remove_timer; simpl. now rewrite Pos.eqb_refl.
Qed.

Lemma batch_snoc (l : list AiState) (s : AiState) (c : Config) :
  batch (l ++ [s]) c = setAiState s (batch l c).
Proof. unfold batch. now rewrite fold_left_app. Qed.

(** Calls made in one task touch the timers, [timerRef] and the queue of
    updates, and leave at most the timer of the last call. *)
Lemma batch_fields (l : list AiState) (c : Config) :
  wf c ->
  same_render_state (batch l c) c /\
  timer_held (batch l c) /\
  updates (batch l c) = l /\
  (forall l' s, l = l' ++ [s] ->
     armed (batch l c) = transient s /\
     map due (pending (batch l c)) =
       if transient s then [now c + 2000] else []).
Proof.
  intros H. induction l as [|s l IH] using rev_ind.
  - destruct H as (Hu & [Ht _] & _).
    split; [repeat split|]. split; [exact Ht|]. split; [exact Hu|].
    intros l' s E. now destruct l'.
  - destruct IH as (Hs & Hh & Hq & _). rewrite batch_snoc, setAiState_eq.
    rewrite (timers_left_held _ Hh).
    destruct Hs as (E1 & E2 & E3 & E4 & E5 & E6 & E7).
    split; [repeat split; assumption|]. split; [|split].
    + unfold timer_held; simpl. destruct (transient s); simpl; trivial.
      eexists; split; [reflexivity|lia].
    + simpl. now rewrite Hq.
    + intros l' s' E. apply app_inj_tail in E. destruct E as [_ <-].
      unfold armed; simpl. rewrite E1. now destruct (transient s).
Qed.

Lemma fold_left_last (l : list AiState) (s a : AiState) :
  fold_left (fun _ v => v) (l ++ [s]) a = s.
Proof. now rewrite fold_left_app. Qed.

(** X9: calls of [setAiState] made one after the other inside one task leave
    no timer behind: the handle is kept in a ref, so each call cancels the
    timer of the call before it.  When React then commits, the state is the
    argument of the last call, at most its timer is armed, due 2000 ms from
    now, and a subscribed consumer is rendered once with the last state, or
    not at all when that is the state it already had. *)
Theorem batched_calls_last_wins (calls : list AiState) (s : AiState) (k : nat)
    (c : Config) :
  reachable c -> In k (consumers c) ->
  let x := batch (calls ++ [s]) c in
  (List.length (pending x) <= 1)%nat /\
  get x = get c /\
  wf (commit x) /\
  get (commit x) = s /\
  timer_invariant (commit x) /\
  map due (pending (commit x)) = (if transient s then [now c + 2000] else []) /\
  received k (notifications c (commit x)) =
    (if strict_eq (get c) s then [] else [value_of s]).
Proof.
  intros H Hk x. apply reachable_wf in H.
  destruct (batch_fields (calls ++ [s]) c H) as (Hs & Hh & Hq & Hl).
  fold x in Hs, Hh, Hq, Hl. destruct (Hl calls s eq_refl) as [Ha Hd].
  destruct Hs as (E1 & E2 & E3 & E4 & E5 & E6 & E7).
  pose proof H as (_ & _ & Hm & Hnd).
  assert (Hmx : memo_ok x).
  { unfold memo_ok, provided in *. rewrite E2, E3, E4, E5. exact Hm. }
  assert (Ec : commit x = rendered s x).
  { rewrite (commit_eq _ Hmx), Hq. now rewrite fold_left_last. }
  assert (Hw : wf (commit x)).
  { rewrite Ec. split; [reflexivity|]. split; [|split].
    - split; [exact Hh|]. change (transient s = armed x). now rewrite Ha.
    - now apply memo_ok_rendered.
    - simpl. now rewrite E6. }
  split; [|split; [|split; [exact Hw|split; [|split; [|split]]]]].
  - rewrite <- (length_map due), Hd. destruct (transient s); simpl; lia.
  - unfold get, provided. now rewrite E5.
  - rewrite (get_wf _ Hw), Ec. reflexivity.
  - now apply wf_timer_invariant.
  - rewrite Ec. exact Hd.
  - rewrite (get_wf _ H).
    assert (Er : renders (commit x) =
                 renders c ++
                 if strict_eq (aiState c) s then []
                 else map (fun j => (j, value_of s)) (consumers c)).
    { rewrite Ec. simpl. now rewrite E2, E6, E7. }
    rewrite (notifications_app _ _ _ Er).
    destruct (strict_eq (aiState c) s); [reflexivity|].
    now apply received_map.
Qed.

Lemma batched_calls_last_wins_witness :
  In 7%nat (consumers (subscribe 7 (mount 0 1))) /\
  received 7 (notifications (subscribe 7 (mount 0 1))
                (commit (batch ([INTERRUPTED; WAITING] ++ [LISTENING])
                           (subscribe 7 (mount 0 1)))))
  = [value_of LISTENING] /\
  pending (commit (batch ([INTERRUPTED; WAITING] ++ [LISTENING])
                     (subscribe 7 (mount 0 1)))) = [].
Proof.
  split; [now left|].
  pose proof (batched_calls_last_wins [INTERRUPTED; WAITING] LISTENING 7
                (subscribe 7 (mount 0 1))
                (reach_subscribe _ _ (reach_mount 0 1)) (or_introl eq_refl))
    as (_ & _ & _ & _ & _ & _ & H).
  split; [exact H|reflexivity].
Defined.

Lemma run_history_snoc (l : list (N * AiState)) (e : N * AiState) (c : Config) :
  run_history (l ++ [e]) c = set (snd e) (advance (fst e) (run_history l c)).
Proof. unfold run_history. now rewrite fold_left_app. Qed.

Lemma reachable_run_history (l : list (N * AiState)) (c : Config) :
  reachable c -> reachable (run_history l c).
Proof.
  revert c. induction l as [|e l IH]; intros c H; [exact H|].
  apply IH, reach_set, reach_advance, H.
Qed.

Lemma now_run_history (l : list (N * AiState)) (c : Config) :
  reachable c -> now (run_history l c) = now c + elapsed l.
Proof.
  revert c. induction l as [|[d s] l IH]; intros c H; simpl.
  - now rewrite N.add_0_r.
  - change (run_history ((d, s) :: l) c)
      with (run_history l (set s (advance d c))).
    rewrite (IH _ (reach_set s _ (reach_advance d _ H))).
    rewrite (set_now _ (wf_advance d _ (reachable_wf _ H)) s), advance_now.
    simpl. lia.
Qed.

(** X10: the store keeps no history.  After any sequence of pauses and
    calls, what the application sees depends on the last call and on the
    clock only: the value is the one of the last state, and a timer is armed
    exactly when that state is transient, due 2000 ms after the last call.
    Two histories of the same total duration that end with the same call
    cannot be told apart. *)
Theorem history_only_last_call_matters (l l' : list (N * AiState)) (d : N)
    (s : AiState) (c : Config) :
  reachable c ->
  observable (run_history (l ++ [(d, s)]) c) =
    (value_of s,
     if transient s then [now c + elapsed l + d + 2000] else []) /\
  (elapsed l' = elapsed l ->
   observable (run_history (l' ++ [(d, s)]) c) =
   observable (run_history (l ++ [(d, s)]) c)).
Proof.
  intros H.
  assert (G : forall m,
             observable (run_history (m ++ [(d, s)]) c) =
             (value_of s,
              if transient s then [now c + elapsed m + d + 2000] else [])).
  { intros m. rewrite run_history_snoc. simpl.
    pose proof (reachable_run_history m c H) as Hm.
    rewrite (set_observable _ (wf_advance d _ (reachable_wf _ Hm)) s).
    now rewrite advance_now, (now_run_history m c H). }
  split; [apply G|]. intros E. now rewrite !G, E.
Qed.

Lemma history_only_last_call_matters_witness :
  reachable (mount 0 1) /\
  observable (run_history ([(100, WAITING); (400, LISTENING)] ++ [(250, INTERRUPTED)])
                (mount 0 1)) =
  observable (run_history ([(500, IDLE)] ++ [(250, INTERRUPTED)]) (mount 0 1)).
Proof.
  split; [apply reach_mount|].
  pose proof (history_only_last_call_matters [(500, IDLE)]
                [(100, WAITING); (400, LISTENING)] 250 INTERRUPTED (mount 0 1)
                (reach_mount 0 1)) as (_ & H).
  exact (H eq_refl).
Defined.

(** ** The contract at every instant *)

Lemma fire_is_commit (t : Timer) (c : Config) :
  fire t c = commit (expire_body t c).
Proof. reflexivity. Qed.

Lemma next_state_committed (c : Config) :
  updates c = [] -> next_state c = aiState c.
Proof. unfold next_state. now intros ->. Qed.

Lemma inv_wf (c : Config) : inv c -> updates c = [] -> wf c.
Proof.
  intros (Hh & Hm & Hn & Ha) Hu. repeat split; try assumption; try apply Hm.
  now rewrite Ha, (next_state_committed _ Hu).
Qed.

Lemma wf_inv (c : Config) : wf c -> inv c.
Proof.
  intros (Hu & [Hh Ha] & Hm & Hn). repeat split; try assumption; try apply Hm.
  now rewrite (next_state_committed _ Hu).
Qed.

Lemma get_inv (c : Config) : inv c -> get c = aiState c.
Proof. intros (_ & (_ & _ & _ & H & _) & _). unfold get. now rewrite H. Qed.

Lemma commit_inv (c : Config) :
  inv c -> commit c = rendered (next_state c) c.
Proof. intros (_ & Hm & _). now apply commit_eq. Qed.

Lemma get_rendered (s : AiState) (c : Config) :
  memo_ok c -> get (rendered s c) = s.
Proof.
  intros Hm. pose proof (memo_ok_rendered s c Hm) as (_ & _ & _ & H & _).
  unfold get. now rewrite H.
Qed.

Lemma inv_subscribe (k : nat) (c : Config) : inv c -> inv (subscribe k c).
Proof.
  intros (Hh & Hm & Hn & Ha). unfold subscribe.
  destruct (existsb (Nat.eqb k) (consumers c)) eqn:E.
  - repeat split; assumption || apply Hm.
  - split; [exact Hh|]. split; [exact Hm|]. split; [|exact Ha].
    simpl. apply NoDup_app; [exact Hn|repeat constructor; intros []|].
    intros x Hx [<-|[]]. now apply (existsb_eqb_false _ _ E).
Qed.

(** One step keeps the invariant, never lowers the next fresh identity, and
    either keeps the state read and the provided object, or changes the
    state and provides a fresh object. *)
Lemma step_inv (x y : Config) :
  inv x -> step x y ->
  inv y /\ (next_oid x <= next_oid y)%nat /\
  if strict_eq (get x) (get y) then provided y = provided x
  else (next_oid x <= oid (provided y))%nat.
Proof.
  intros Hx Hs. pose proof Hx as (Hh & Hm & Hn & Ha).
  destruct Hs as [k c|s c|c|d c Hu|t c Hu Hin].
  - assert (E : provided (subscribe k c) = provided c
                /\ next_oid (subscribe k c) = next_oid c).
    { unfold subscribe. now destruct (existsb _ _). }
    destruct E as [Ep En]. split; [|split].
    + now apply inv_subscribe.
    + lia.
    + unfold get. rewrite Ep, strict_eq_refl. reflexivity.
  - rewrite setAiState_eq, (timers_left_held _ Hh). split; [|split].
    + split; [|split; [exact Hm|split; [exact Hn|]]].
      * unfold timer_held; simpl. destruct (transient s); simpl; trivial.
        eexists; split; [reflexivity|lia].
      * unfold armed, next_state; simpl. rewrite fold_left_app. simpl.
        now destruct (transient s).
    + simpl. lia.
    + unfold get, provided; simpl. rewrite strict_eq_refl. reflexivity.
  - rewrite (commit_inv _ Hx). split; [|split].
    + split; [exact Hh|]. split; [now apply memo_ok_rendered|].
      split; [exact Hn|exact Ha].
    + simpl. destruct (strict_eq _ _); lia.
    + rewrite (get_rendered _ _ Hm), (get_inv _ Hx).
      unfold provided; simpl. destruct (strict_eq _ _); simpl; [reflexivity|lia].
  - pose proof (inv_wf _ Hx Hu) as Hw.
    split; [apply wf_inv, wf_advance, Hw|].
    destruct (advance_cases d c Hw) as [Hr Hp E|h t Hr Hp Hlt E|h t Hr Hp Hle E];
      rewrite E.
    + split; [simpl; lia|]. unfold get, provided; simpl.
      now rewrite strict_eq_refl.
    + split; [simpl; lia|]. unfold get, provided; simpl.
      now rewrite strict_eq_refl.
    + rewrite (fire_eq _ _ _ Hw Hp).
      assert (Ei : strict_eq (aiState c) IDLE = false).
      { destruct Hw as (_ & [_ Ht] & _). unfold armed in Ht. rewrite Hr in Ht.
        destruct (aiState c); try discriminate Ht; reflexivity. }
      split; [simpl; destruct (strict_eq _ _); lia|].
      unfold get at 2. unfold provided at 1. simpl. rewrite Ei. simpl.
      rewrite (get_inv _ Hx), Ei. unfold provided; simpl. rewrite Ei. simpl.
      lia.
  - unfold timer_held in Hh. destruct (timerRef c) as [h|];
      [|rewrite Hh in Hin; contradiction].
    destruct Hh as (d & Hp & _). rewrite Hp in Hin.
    destruct Hin as [<-|[]].
    assert (E : expire_body (mkTimer h d Expire) c =
                mkConfig (N.max (now c) d) (next_handle c) [] (next_oid c)
                  (aiState c) [IDLE] None (checksMemo c) (contextMemo c)
                  (consumers c) (renders c)).
    { unfold expire_body, run_callback, with_timerRef, setAiStateInternal,
        with_state; simpl.
      rewrite Hp, Hu. unfold remove_timer; simpl.
      rewrite Pos.eqb_refl. reflexivity. }
    rewrite E. split; [|split].
    + split; [reflexivity|]. split; [exact Hm|]. split; [exact Hn|reflexivity].
    + simpl. lia.
    + unfold get, provided; simpl. now rewrite strict_eq_refl.
Qed.

Lemma running_inv (c : Config) : running c -> inv c.
Proof.
  induction 1 as [t0 h0|c c' H IH Hs].
  - apply wf_inv, wf_mount.
  - now apply (step_inv c c' IH Hs).
Qed.

(** The configurations between two tasks are among those of [running]. *)
Lemma reachable_running (c : Config) : reachable c -> running c.
Proof.
  induction 1 as [t0 h0|k c H IH|s c H IH|c H IH|d c H IH].
  - apply run_mount.
  - exact (run_step _ _ IH (step_subscribe k c)).
  - exact (run_step _ _ (run_step _ _ IH (step_call s c)) (step_commit _)).
  - exact (run_step _ _ (run_step _ _ IH (step_call IDLE c)) (step_commit _)).
  - apply (run_step _ _ IH). apply step_advance.
    now destruct (reachable_wf _ H) as (Hu & _).
Qed.

Lemma inv_timer_follows (c : Config) : inv c -> timer_follows_request c.
Proof.
  intros (Hh & _ & _ & Ha). unfold timer_follows_request, timer_held, armed in *.
  destruct (timerRef c) as [h|].
  - destruct Hh as (t & Hp & _). rewrite Hp. split; [simpl; lia|]. split.
    + intros h'. split.
      * intros [= <-]. now exists t.
      * intros (t' & [= <- _]). reflexivity.
    + split; [intros _|discriminate].
      destruct (next_state c); try discriminate Ha; auto.
  - rewrite Hh. split; [simpl; lia|]. split.
    + intros h'. split; [discriminate|]. intros (t' & [=]).
    + split; [congruence|]. intros [E|E]; rewrite E in Ha; discriminate Ha.
Qed.

Lemma set_running (s : AiState) (c : Config) :
  running c -> running (setAiState s c) /\ running (set s c).
Proof.
  intros H. pose proof (run_step _ _ H (step_call s c)) as H1.
  split; [exact H1|]. exact (run_step _ _ H1 (step_commit _)).
Qed.

Lemma next_state_call (s : AiState) (c : Config) :
  next_state (setAiState s c) = s.
Proof. rewrite setAiState_eq. unfold next_state; simpl. apply fold_last. Qed.

Lemma set_get_running (s : AiState) (c : Config) :
  running c -> get (set s c) = s /\ aiState (set s c) = s.
Proof.
  intros H. destruct (set_running s c H) as [H1 _].
  apply running_inv in H1. unfold set.
  rewrite (commit_inv _ H1), next_state_call.
  split; [|reflexivity]. apply get_rendered. apply H1.
Qed.

(** C1, against the claim as stated: in state [WAITING], once the call
    [setAiState LISTENING] has returned, a consumer still reads [WAITING]. *)
Lemma stale_read_after_call :
  get (set WAITING (mount 0 1)) = WAITING /\
  get (setAiState LISTENING (set WAITING (mount 0 1))) <> LISTENING.
Proof. split; vm_compute; [reflexivity|discriminate]. Qed.

(** C1, amended: for every state [s] of the enumeration, [set s] followed
    by [get] returns [s] once React has committed the update that the call
    queued, whatever the state, the pending timer and the updates queued
    before in the same task; between the return of the call and that commit
    [get] still returns the state of before. *)
Theorem set_visible_after_commit (s : AiState) (c : Config) :
  running c ->
  get (setAiState s c) = get c /\
  get (commit (setAiState s c)) = s /\
  aiState (commit (setAiState s c)) = s.
Proof.
  intros H. split.
  - rewrite setAiState_eq. reflexivity.
  - exact (set_get_running s c H).
Qed.

Lemma set_visible_after_commit_witness :
  running (setAiState INTERRUPTED (set WAITING (mount 0 1))) /\
  get (commit (setAiState LISTENING
                 (setAiState INTERRUPTED (set WAITING (mount 0 1)))))
  = LISTENING.
Proof.
  assert (H : running (setAiState INTERRUPTED (set WAITING (mount 0 1)))).
  { apply set_running, set_running, run_mount. }
  split; [exact H|].
  pose proof (set_visible_after_commit LISTENING _ H) as (_ & G & _).
  exact G.
Defined.

(** C5, against the claim as stated: when [setAiState INTERRUPTED] has
    returned and React has not committed, a timer is armed while the current
    state is still [LOADING]; and after [setAiState LISTENING] in state
    [WAITING] no timer is armed while the current state is still
    [WAITING]. *)
Lemma timer_ahead_of_state :
  (pending (setAiState INTERRUPTED (mount 0 1)) <> [] /\
   get (setAiState INTERRUPTED (mount 0 1)) = LOADING) /\
  (pending (setAiState LISTENING (set WAITING (mount 0 1))) = [] /\
   get (setAiState LISTENING (set WAITING (mount 0 1))) = WAITING).
Proof. repeat split; vm_compute; discriminate. Qed.

(** C5, amended: at every instant, between a call and its commit too, at
    most one expiry timer is armed and [timerRef] holds its handle; a timer
    is armed if and only if the state most recently asked for, which is the
    current state as soon as React has committed, is [INTERRUPTED] or
    [WAITING].  Every call, every commit, every timer callback and every
    passage of time leads to a configuration where this holds again. *)
Theorem timer_follows_last_request (c : Config) :
  running c ->
  timer_follows_request c /\
  (updates c = [] -> timer_invariant c) /\
  (forall c', step c c' -> timer_follows_request c').
Proof.
  intros H. split; [|split].
  - apply inv_timer_follows, running_inv, H.
  - intros Hu. apply wf_timer_invariant, inv_wf; [apply running_inv, H|exact Hu].
  - intros c' Hs. apply inv_timer_follows, running_inv.
    exact (run_step _ _ H Hs).
Qed.

Lemma timer_follows_last_request_witness :
  running (setAiState INTERRUPTED (mount 0 1)) /\
  timer_follows_request (setAiState INTERRUPTED (mount 0 1)).
Proof.
  assert (H : running (setAiState INTERRUPTED (mount 0 1))).
  { apply set_running, run_mount. }
  split; [exact H|].
  pose proof (timer_follows_last_request _ H) as (G & _).
  exact G.
Defined.

(** C6, against the claim as stated: in state [WAITING], once the call
    [setAiState LISTENING] has returned, the predicate that is true is
    [isWaiting], not [isListening]. *)
Lemma predicate_of_previous_state :
  isListening (oval (provided (setAiState LISTENING (set WAITING (mount 0 1)))))
  = false /\
  isWaiting (oval (provided (setAiState LISTENING (set WAITING (mount 0 1)))))
  = true.
Proof. split; reflexivity. Qed.

(** C6, amended: at every instant exactly one of the six derived predicates
    is true, never two and never none, and it is the predicate of the state
    that [get] returns; after [set s] this is the predicate matching [s]
    once React has committed the update, and until then it is still the
    predicate of the state of before. *)
Theorem one_predicate_of_visible_state (s : AiState) (c : Config) :
  running c ->
  count_occ bool_dec (predicates (oval (provided c))) true = 1%nat /\
  (forall s', predicate_of s' (oval (provided c)) = true <-> s' = get c) /\
  provided (setAiState s c) = provided c /\
  count_occ bool_dec
    (predicates (oval (provided (commit (setAiState s c))))) true = 1%nat /\
  (forall s',
     predicate_of s' (oval (provided (commit (setAiState s c)))) = true
     <-> s' = s).
Proof.
  assert (G : forall x, running x ->
            count_occ bool_dec (predicates (oval (provided x))) true = 1%nat /\
            (forall s', predicate_of s' (oval (provided x)) = true <-> s' = get x)).
  { intros x Hx. apply running_inv in Hx. rewrite (get_inv _ Hx).
    destruct Hx as (_ & (_ & _ & _ & Hv & _) & _). rewrite Hv. split.
    - destruct (aiState x); reflexivity.
    - intros s'. split.
      + destruct s', (aiState x); intros Hp; try reflexivity;
          vm_compute in Hp; discriminate Hp.
      + intros ->. destruct (aiState x); reflexivity. }
  intros H. destruct (G c H) as [G1 G2].
  destruct (set_running s c H) as [_ H2]. destruct (G _ H2) as [G3 G4].
  rewrite (proj1 (set_get_running s c H)) in G4.
  unfold set in G3, G4.
  repeat split; try assumption; try apply G2; try apply G4.
  rewrite setAiState_eq. reflexivity.
Qed.

Lemma one_predicate_of_visible_state_witness :
  running (set WAITING (mount 0 1)) /\
  isListening
    (oval (provided (commit (setAiState LISTENING (set WAITING (mount 0 1))))))
  = true.
Proof.
  assert (H : running (set WAITING (mount 0 1))).
  { apply set_running, run_mount. }
  split; [exact H|].
  pose proof (one_predicate_of_visible_state LISTENING _ H)
    as (_ & _ & _ & _ & G).
  exact (proj2 (G LISTENING) eq_refl).
Defined.

(** The commit at the end of a task of one or more calls. *)
Lemma batch_commit (calls : list AiState) (s : AiState) (c : Config) :
  wf c ->
  renders (batch (calls ++ [s]) c) = renders c /\
  renders (commit (batch (calls ++ [s]) c)) =
    renders c ++
    (if strict_eq (aiState c) s then []
     else map (fun j => (j, value_of s)) (consumers c)) /\
  oval (provided (commit (batch (calls ++ [s]) c))) = value_of s.
Proof.
  intros H.
  destruct (batch_fields (calls ++ [s]) c H) as (Hs & _ & Hq & _).
  destruct Hs as (E1 & E2 & E3 & E4 & E5 & E6 & E7).
  pose proof H as (_ & _ & Hm & _).
  assert (Hmx : memo_ok (batch (calls ++ [s]) c)).
  { unfold memo_ok, provided in *. rewrite E2, E3, E4, E5. exact Hm. }
  split; [exact E7|].
  rewrite (commit_eq _ Hmx), Hq, fold_left_last. split.
  - simpl. now rewrite E2, E6, E7.
  - now destruct (memo_ok_rendered s _ Hmx) as (_ & _ & _ & Hv & _).
Qed.

(** C8, amended: consumers are notified by commits, not by calls.  No
    subscriber is notified between a call and the commit.  At the commit
    that ends a task of one or more calls, every subscriber registered
    before the task receives exactly one notification, with the value after
    the commit, when the state of the last call differs from the state
    before the task, and none when it is the same.  So a call alone in its
    task is notified exactly once when it changes the state and not at all
    when it names the state already held, and calls that share a commit
    share the notification of the last one. *)
Theorem commit_notifies_on_change (calls : list AiState) (s : AiState)
    (k : nat) (c : Config) :
  running c -> updates c = [] -> In k (consumers c) ->
  let x := batch (calls ++ [s]) c in
  notifications c x = [] /\
  (s <> get c ->
   received k (notifications c (commit x)) = [oval (provided (commit x))] /\
   value_aiState (oval (provided (commit x))) = s) /\
  (s = get c -> notifications c (commit x) = []).
Proof.
  intros H Hu Hk x. pose proof (inv_wf _ (running_inv _ H) Hu) as Hw.
  destruct (batch_commit calls s c Hw) as (E0 & Er & Ev). fold x in E0, Er, Ev.
  rewrite (get_wf _ Hw). pose proof Hw as (_ & _ & _ & Hnd).
  split; [|split]; intros.
  - unfold notifications. rewrite E0. apply skipn_all.
  - rewrite strict_eq_neq in Er by congruence.
    rewrite (notifications_app _ _ _ Er), Ev.
    split; [now apply received_map|reflexivity].
  - subst s. rewrite strict_eq_refl in Er.
    now rewrite (notifications_app _ _ _ Er).
Qed.

Lemma commit_notifies_on_change_witness :
  In 7%nat (consumers (subscribe 7 (mount 0 1))) /\
  received 7 (notifications (subscribe 7 (mount 0 1))
                (commit (batch ([INTERRUPTED] ++ [THINKING_SPEAKING])
                           (subscribe 7 (mount 0 1)))))
  = [value_of THINKING_SPEAKING] /\
  notifications (subscribe 7 (mount 0 1))
    (commit (batch ([INTERRUPTED] ++ [LOADING]) (subscribe 7 (mount 0 1))))
  = [].
Proof.
  assert (H : running (subscribe 7 (mount 0 1))).
  { exact (run_step _ _ (run_mount 0 1) (step_subscribe 7 _)). }
  split; [now left|]. split.
  - pose proof (commit_notifies_on_change [INTERRUPTED] THINKING_SPEAKING 7 _
                  H eq_refl (or_introl eq_refl)) as (_ & G & _).
    refine (proj1 (G _)). vm_compute. discriminate.
  - pose proof (commit_notifies_on_change [INTERRUPTED] LOADING 7 _
                  H eq_refl (or_introl eq_refl)) as (_ & _ & G).
    exact (G eq_refl).
Defined.

Lemma evolves_inv (b : bool) (c c' : Config) :
  inv c -> evolves c b c' ->
  inv c' /\ (next_oid c <= next_oid c')%nat /\
  if b then (next_oid c <= oid (provided c'))%nat
  else provided c' = provided c.
Proof.
  intros Hc. induction 1 as [|b x y He IH Hs].
  - split; [exact Hc|]. split; [lia|reflexivity].
  - destruct IH as (Hx & Hle & Hb).
    destruct (step_inv x y Hx Hs) as (Hy & Hle' & Hp).
    split; [exact Hy|]. split; [lia|].
    destruct (strict_eq (get x) (get y)); simpl.
    + rewrite orb_false_r, Hp. exact Hb.
    + rewrite orb_true_r. lia.
Qed.

(** X6: the memoised context value keeps its identity exactly as long as the
    state read does.  Over any number of steps (calls, commits, timers
    re-armed or fired, pauses, subscriptions), if no step changed the state
    that consumers read, the provider still gives the very same object; as
    soon as one step changed it, the object given is another one, whose
    identity is larger than that of the object given before, and at least
    the next fresh identity of then: an identity never given out before. *)
Theorem context_identity_follows_state (b : bool) (c c' : Config) :
  running c -> evolves c b c' ->
  (b = false -> provided c' = provided c) /\
  (b = true ->
   (oid (provided c) < oid (provided c'))%nat /\
   (next_oid c <= oid (provided c'))%nat /\
   provided c' <> provided c).
Proof.
  intros H He. apply running_inv in H.
  destruct (evolves_inv b c c' H He) as (_ & _ & Hb).
  destruct H as (_ & (_ & _ & _ & _ & _ & Hlt) & _).
  split; intros ->; [exact Hb|].
  split; [lia|]. split; [exact Hb|]. intros E. rewrite E in Hb. lia.
Qed.

Lemma context_identity_follows_state_witness :
  running (set WAITING (mount 0 1)) /\
  provided (advance 1000 (commit (setAiState WAITING (set WAITING (mount 0 1)))))
  = provided (set WAITING (mount 0 1)) /\
  provided (advance 2000 (set WAITING (mount 0 1)))
  <> provided (set WAITING (mount 0 1)).
Proof.
  assert (H : running (set WAITING (mount 0 1))).
  { apply set_running, run_mount. }
  split; [exact H|]. split.
  - pose proof (context_identity_follows_state _ _ _ H
                  (ev_step _ _ _ _
                     (ev_step _ _ _ _
                        (ev_step _ _ _ _ (ev_refl (set WAITING (mount 0 1)))
                           (step_call WAITING (set WAITING (mount 0 1))))
                        (step_commit
                           (setAiState WAITING (set WAITING (mount 0 1)))))
                     (step_advance 1000
                        (commit (setAiState WAITING (set WAITING (mount 0 1))))
                        eq_refl))) as [G _].
    exact (G eq_refl).
  - pose proof (context_identity_follows_state _ _ _ H
                  (ev_step _ _ _ _ (ev_refl (set WAITING (mount 0 1)))
                     (step_advance 2000 (set WAITING (mount 0 1)) eq_refl)))
      as [_ G].
    exact (proj2 (proj2 (G eq_refl))).
Defined.
